(** * Taint-trace graphs of com-gen.py: model and properties

    A shallow embedding of [src/com-gen.py]: the classes [TaintTrace] and
    [TaintTraceGraph], the span converter [associate_info], [format_source],
    and the two loops of the script (loading the findings, clustering the
    graphs of each check id).

    Python objects are mutable and shared.  A [TaintTrace] writes exactly one
    of its fields after [__init__], [next_traces]; that field lives in a
    store indexed by object identity, and the fields assigned once
    ([start], [end], [offset], [_context]) travel with the reference.

    Text is a [string] of 8-bit characters, offsets and lengths are in [Z],
    and the JSON of the scanner is taken as records, so that a missing key
    is not an input. *)

From Stdlib Require Import ZArith Ascii String DecimalString Lia Permutation Sorted.
From stdpp Require Import base list strings gmap.

Local Open Scope Z_scope.

(** ** Text *)

Module Text.

(** The characters the escaping rules look for. *)
Definition dquote : ascii := ascii_of_nat 34.
Definition apos : ascii := ascii_of_nat 39.
Definition lt : ascii := ascii_of_nat 60.
Definition gt : ascii := ascii_of_nat 62.
Definition newline : ascii := ascii_of_nat 10.

(** [s.replace(old, new)] for a one-character [old]; every call of
    [str.replace] in the source has such a pattern. *)
Fixpoint replace (old : ascii) (new : string) (s : string) : string :=
  match s with
  | EmptyString => EmptyString
  | String c s' =>
      if Ascii.eqb c old then String.append new (replace old new s')
      else String c (replace old new s')
  end.

(** An index of a slice, as [PySlice_AdjustIndices] clamps it for a
    positive step: a negative index counts from the end. *)
Definition adjust (len i : Z) : Z :=
  if i <? 0 then Z.max (i + len) 0 else Z.min i len.

(** [s[lo:hi]] *)
Definition slice (s : string) (lo hi : Z) : string :=
  let len := Z.of_nat (String.length s) in
  let a := adjust len lo in
  let b := adjust len hi in
  substring (Z.to_nat a) (Z.to_nat (b - a)) s.

End Text.

(** ** Spans and findings, as the scanner's JSON gives them *)

Record position := Position { line : Z; col : Z; pos_offset : Z }.

(** A range: a dict with the keys ["start"] and ["end"]. *)
Record span := Span { span_start : position; span_end : position }.

Record dataflow_trace := DataflowTrace {
  taint_source : list span;
  intermediate_vars : list span
}.

(** One element of [data["results"]]; [r["extra"]] may lack the key
    ["dataflow_trace"]. *)
Record finding := Finding {
  check_id : string;
  finding_range : span;
  extra_dataflow_trace : option dataflow_trace
}.

(** ** class TaintTrace *)

(** A reference to a [TaintTrace] object: its identity and the fields that
    [__init__] assigns and nothing writes again. *)
Record TaintTrace := mkTaintTrace {
  oid : nat;
  start : position;
  end_ : position;
  offset : Z;
  _context : string
}.

(** The property [context]: the escaped text, [self._context] through the
    five calls of [replace]. *)
Definition escape (raw : string) : string :=
  Text.replace Text.newline "<br>"
    (Text.replace Text.gt "&gt;"
      (Text.replace Text.lt "&lt;"
        (Text.replace Text.apos "#apos;"
          (Text.replace Text.dquote "#quot;" raw)))).

Definition context (self : TaintTrace) : string := escape (_context self).

(** The tuple that [__hash__] hashes. *)
Definition hash_key (self : TaintTrace) : Z * string :=
  (offset self, context self).

(** [__eq__] *)
Definition __eq__ (self other : TaintTrace) : bool :=
  (offset self =? offset other) && String.eqb (context self) (context other).

(** [__lt__] *)
Definition __lt__ (self other : TaintTrace) : bool :=
  offset self <? offset other.

(** ** Python sets of [TaintTrace]

    A [set] keeps one element per class of [__eq__] (with [__hash__]
    agreeing); it is modelled by the list of its elements, without two
    elements that [__eq__] identifies.  The order of the list stands for
    nothing: Python iterates over a set in an order of its own, and only
    membership and size are read off the model. *)

Abbreviation pyset := (list TaintTrace).

(** [x in s] *)
Definition set_contains (s : pyset) (x : TaintTrace) : bool :=
  existsb (fun y => __eq__ y x) s.

(** [s.add(x)] *)
Definition set_add (s : pyset) (x : TaintTrace) : pyset :=
  if set_contains s x then s else s ++ [x].

(** [s.update(it)] *)
Definition set_update (s : pyset) (it : list TaintTrace) : pyset :=
  fold_left set_add it s.

(** [set(it)] *)
Definition set_ (it : list TaintTrace) : pyset := set_update [] it.

(** [s.intersection(it)] for an iterable [it]: the elements of [it] found
    in [s]. *)
Definition intersection (s : pyset) (it : list TaintTrace) : pyset :=
  set_ (List.filter (set_contains s) it).

(** Truth value of a set: non-empty. *)
Definition truthy (s : pyset) : bool :=
  match s with [] => false | _ => true end.

(** [a or b] on sets: [a] when it is true, else [b]. *)
Definition py_or (a b : pyset) : pyset := if truthy a then a else b.

(** ** The store of [next_traces] *)

(** [st !! oid x] is the field [next_traces] of the object [x]. *)
Abbreviation store := (list (list TaintTrace)).

Definition next_traces (st : store) (self : TaintTrace) : pyset :=
  default [] (st !! oid self).

(** [TaintTrace(trace)]: a new object, with [next_traces = set()]. *)
Definition TaintTrace__init__ (st : store) (range : span) (ctx : string)
  : store * TaintTrace :=
  (st ++ [[]],
   {| oid := length st;
      start := span_start range;
      end_ := span_end range;
      offset := pos_offset (span_start range);
      _context := ctx |}).

Definition set_next_traces (st : store) (self : TaintTrace)
  (next_traces : list TaintTrace) : store :=
  <[oid self := set_ next_traces]> st.

Definition update_traces (st : store) (self : TaintTrace)
  (other : list TaintTrace) : store :=
  <[oid self := set_update (next_traces st self) other]> st.

(** ** Exceptions *)

Inductive exn := IndexError | KeyError.

Abbreviation result A := (exn + A)%type.

Definition ret {A} (x : A) : result A := inr x.

Definition bind {A B} (m : result A) (k : A -> result B) : result B :=
  match m with
  | inl e => inl e
  | inr x => k x
  end.

Notation "'let*' x ':=' m 'in' k" := (bind m (fun x => k))
  (at level 10, x name, m at level 100, k at level 200).
Notation "'let*' ' pat ':=' m 'in' k" :=
  (bind m (fun x => match x with pat => k end))
  (at level 10, pat pattern, m at level 100, k at level 200).

(** [l[i]], negative indices counting from the end. *)
Definition getitem {A} (l : list A) (i : Z) : result A :=
  let n := Z.of_nat (length l) in
  let j := if i <? 0 then i + n else i in
  if (j <? 0) || (n <=? j) then inl IndexError
  else match l !! Z.to_nat j with
       | Some x => inr x
       | None => inl IndexError
       end.

(** [for i in idx: st = body(i, st)] *)
Fixpoint for_each {I S} (idx : list I) (body : I -> S -> result S) (st : S)
  : result S :=
  match idx with
  | [] => ret st
  | i :: idx' => let* st' := body i st in for_each idx' body st'
  end.

(** [range(n)] for an integer [n]. *)
Definition range (n : Z) : list Z := map Z.of_nat (seq 0 (Z.to_nat n)).

(** ** [sorted] *)

(** [sorted] compares with [__lt__] only and is stable.  The element [x]
    stood before those of [l] in the input: it passes the elements that are
    less than it and stops before the first that is not. *)
Fixpoint insort (x : TaintTrace) (l : list TaintTrace) : list TaintTrace :=
  match l with
  | [] => [x]
  | y :: l' => if __lt__ y x then y :: insort x l' else x :: y :: l'
  end.

Definition sorted (l : list TaintTrace) : list TaintTrace :=
  foldr insort [] l.

(** ** class TaintTraceGraph *)

Record TaintTraceGraph := mkTaintTraceGraph {
  sources : list TaintTrace;
  intermediates : list TaintTrace;
  sinks : list TaintTrace
}.

Definition len {A} (l : list A) : Z := Z.of_nat (length l).

(** [for i in range(len(l) - 1): l[i].set_next_traces([l[i + 1]])] *)
Definition chain (st : store) (l : list TaintTrace) : result store :=
  for_each (range (len l - 1))
    (fun i st =>
       let* a := getitem l i in
       let* b := getitem l (i + 1) in
       ret (set_next_traces st a [b]))
    st.

(** [TaintTraceGraph(sources, intermediates, sinks)] *)
Definition TaintTraceGraph__init__ (st : store)
  (sources intermediates sinks : list TaintTrace)
  : result (store * TaintTraceGraph) :=
  let sources := sorted sources in
  let intermediates := sorted intermediates in
  let sinks := sorted sinks in
  let* st := chain st sources in
  let* last := getitem sources (-1) in
  let* next := (if len intermediates >? 0 then getitem intermediates 0
                else getitem sinks 0) in
  let st := set_next_traces st last [next] in
  let* st := chain st intermediates in
  let* st := (if len intermediates >? 0
              then let* last := getitem intermediates (-1) in
                   let* next := getitem sinks 0 in
                   ret (set_next_traces st last [next])
              else ret st) in
  ret (st, mkTaintTraceGraph sources intermediates sinks).

(** [self.intersects(other)] *)
Definition intersects (self other : TaintTraceGraph) : bool :=
  truthy
    (py_or (intersection (set_ (sources self)) (sources other))
       (py_or (intersection (set_ (intermediates self)) (intermediates other))
          (intersection (set_ (sinks self)) (sinks other)))).

(** [self.update(other)]: the three lists of [self] after the call. *)
Definition update (self other : TaintTraceGraph) : TaintTraceGraph :=
  {| sources := sources self ++ sources other;
     intermediates := intermediates self ++ intermediates other;
     sinks := sinks self ++ sinks other |}.

(** ** The span converter and the script *)

(** [TaintTrace(x)] for each range of [ranges], in order. *)
Fixpoint make_traces (st : store) (ranges : list span) (file_contents : string)
  : store * list TaintTrace :=
  match ranges with
  | [] => (st, [])
  | r :: ranges' =>
      let ctx := Text.slice file_contents
                   (pos_offset (span_start r)) (pos_offset (span_end r)) in
      let '(st, x) := TaintTrace__init__ st r ctx in
      let '(st, xs) := make_traces st ranges' file_contents in
      (st, x :: xs)
  end.

(** [associate_info(ranges, file_contents)] *)
Definition associate_info (st : store) (ranges : list span)
  (file_contents : string) : store * list TaintTrace :=
  let '(st, ranges) := make_traces st ranges file_contents in
  (st, List.filter (fun x => negb (String.eqb (context x) ".")) ranges).

(** [format_source(dataflow, contents)] *)
Definition format_source (st : store) (dataflow : finding) (contents : string)
  : result (store * (list TaintTrace * list TaintTrace * list TaintTrace)) :=
  let sink := [finding_range dataflow] in
  match extra_dataflow_trace dataflow with
  | None => inl KeyError
  | Some t =>
      let source := taint_source t in
      let intermediate := intermediate_vars t in
      let '(st, sources) := associate_info st source contents in
      let '(st, intermediates) := associate_info st intermediate contents in
      let '(st, sinks) := associate_info st sink contents in
      ret (st, (sources, intermediates, sinks))
  end.

(** The dict [results]: check ids in insertion order, each with its list of
    graphs. *)
Abbreviation results_dict := (list (string * list TaintTraceGraph)).

(** [k in results] *)
Definition dict_mem (results : results_dict) (k : string) : bool :=
  existsb (fun kv => String.eqb (fst kv) k) results.

(** [results[k] = []] for a key that is not there. *)
Definition dict_new (results : results_dict) (k : string) : results_dict :=
  results ++ [(k, [])].

(** [results[k].append(g)]; the script calls it for a key that is there. *)
Fixpoint dict_append (results : results_dict) (k : string) (g : TaintTraceGraph)
  : results_dict :=
  match results with
  | [] => []
  | (k', gs) :: results' =>
      if String.eqb k' k then (k', gs ++ [g]) :: results'
      else (k', gs) :: dict_append results' k g
  end.

(** The body of [for r in data["results"]]. *)
Definition load_one (contents : string) (r : finding)
  (s : store * results_dict) : result (store * results_dict) :=
  let '(st, results) := s in
  match extra_dataflow_trace r with
  | None => ret (st, results)
  | Some _ =>
      let results :=
        if dict_mem results (check_id r) then results
        else dict_new results (check_id r) in
      let* '(st, (b, i, e)) := format_source st r contents in
      let* '(st, g) := TaintTraceGraph__init__ st b i e in
      ret (st, dict_append results (check_id r) g)
  end.

(** The first loop of the script. *)
Definition load (data : list finding) (contents : string)
  : result (store * results_dict) :=
  for_each data (load_one contents) ([], []).

(** ** Clustering

    [TaintTraceGraph] defines no [__eq__]: [g == h] and [g in seen] compare
    object identity, which is the position of the graph in [results[res]].
    [gs] holds the current lists of every graph of that list. *)

(** [x in l] on identities. *)
Definition mem (x : nat) (l : list nat) : bool := existsb (Nat.eqb x) l.

(** The body of [for h in results[res]], for the graph [g]. *)
Definition cluster_inner (g h : nat) (s : list TaintTraceGraph * list nat)
  : list TaintTraceGraph * list nat :=
  let '(gs, seen) := s in
  if mem h seen then (gs, seen)
  else if Nat.eqb g h then (gs, seen)
  else match gs !! g, gs !! h with
       | Some vg, Some vh =>
           if intersects vg vh then (<[g := update vg vh]> gs, seen ++ [h])
           else (gs, seen)
       | _, _ => (gs, seen)
       end.

(** The body of [for g in results[res]]. *)
Definition cluster_outer (ids : list nat) (g : nat)
  (s : list TaintTraceGraph * list nat * list nat)
  : list TaintTraceGraph * list nat * list nat :=
  let '(gs, seen, final) := s in
  if mem g seen then (gs, seen, final)
  else
    let '(gs, seen) := fold_left (fun s h => cluster_inner g h s) ids (gs, seen) in
    (gs, seen, final ++ [g]).

(** The second loop for one check id: the graphs of [final], as they are
    when the loop ends. *)
Definition cluster (graphs : list TaintTraceGraph) : list TaintTraceGraph :=
  let ids := seq 0 (length graphs) in
  let '(gs, _, final) :=
    fold_left (fun s g => cluster_outer ids g s) ids (graphs, [], []) in
  omap (fun g => gs !! g) final.

(** The script: the final store and, per check id, the list [final]. *)
Definition main (data : list finding) (contents : string)
  : result (store * list (string * list TaintTraceGraph)) :=
  let* '(st, results) := load data contents in
  ret (st, map (fun kv => (fst kv, cluster (snd kv))) results).

(** ** Edges

    [hash] is Python's built-in [hash] on the tuple [(offset, context)]; its
    values change from run to run, so it is a parameter. *)

Section Mermaid.

Variable hash : Z * string -> Z.

(** [__hash__] *)
Definition __hash__ (self : TaintTrace) : Z := hash (hash_key self).

(** The values [to_mermaid_node] yields: an edge [hash(self) --> hash(trace)]
    for each [trace] of [self.next_traces]. *)
Definition to_mermaid_node (st : store) (self : TaintTrace) : list (Z * Z) :=
  map (fun trace => (__hash__ self, __hash__ trace)) (next_traces st self).

(** All that the three loops of [to_graph] pass to [nodes.update]. *)
Definition emitted (st : store) (g : TaintTraceGraph) : list (Z * Z) :=
  flat_map (to_mermaid_node st) (sources g)
  ++ flat_map (to_mermaid_node st) (intermediates g)
  ++ flat_map (to_mermaid_node st) (sinks g).

End Mermaid.

(** ** Reference notions for the properties *)

(** What the five rules make of one character. *)
Definition token (c : ascii) : string :=
  if Ascii.eqb c Text.dquote then "#quot;"
  else if Ascii.eqb c Text.apos then "#apos;"
  else if Ascii.eqb c Text.lt then "&lt;"
  else if Ascii.eqb c Text.gt then "&gt;"
  else if Ascii.eqb c Text.newline then "<br>"
  else String c "".

Fixpoint expand (s : string) : string :=
  match s with
  | EmptyString => EmptyString
  | String c s' => String.append (token c) (expand s')
  end.

(** Number of occurrences of a character. *)
Fixpoint count (c : ascii) (s : string) : nat :=
  match s with
  | EmptyString => 0
  | String d s' => (if Ascii.eqb d c then 1 else 0) + count c s'
  end.

(** Two lists of traces overlap when a trace of one equals, by [__eq__], a
    trace of the other. *)
Definition overlap (l1 l2 : list TaintTrace) : Prop :=
  exists a b, In a l1 /\ In b l2 /\ __eq__ a b = true.

(** Linking a path: each trace of [l] but the last gets the next one as its
    only successor, from left to right. *)
Fixpoint link (st : store) (l : list TaintTrace) : store :=
  match l with
  | a :: (b :: _) as l' => link (set_next_traces st a [b]) l'
  | _ => st
  end.

(** Traces that are distinct objects of the store and have no successor yet,
    as [TaintTrace(...)] creates them. *)
Definition unlinked (st : store) (l : list TaintTrace) : Prop :=
  NoDup (map oid l) /\ Forall (fun x => st !! oid x = Some []) l.

(** [st'] is [st] with some traces created after it, and the traces of [l]
    are distinct ones among those. *)
Definition created (st st' : store) (l : list TaintTrace) : Prop :=
  (exists n, st' = st ++ replicate n [])
  /\ NoDup (map oid l)
  /\ Forall (fun x => (length st <= oid x < length st')%nat) l.

(** The ranges that [associate_info] keeps: those whose escaped text is not
    a single dot. *)
Definition kept (contents : string) (ranges : list span) : list span :=
  List.filter
    (fun r => negb (String.eqb
       (escape (Text.slice contents
                  (pos_offset (span_start r)) (pos_offset (span_end r)))) "."))
    ranges.

Definition trace_range (x : TaintTrace) : span := Span (start x) (end_ x).

(** The sinks of [g] exist in the store and have no successor. *)
Definition terminal (st : store) (g : TaintTraceGraph) : Prop :=
  forall k, In k (sinks g) -> st !! oid k = Some [].

(** No trace of the store has more than one successor. *)
Definition at_most_one (st : store) : Prop :=
  Forall (fun s : list TaintTrace => (length s <= 1)%nat) st.

(** The operations on graphs during a run: a graph is constructed from a
    finding, or a graph takes in the lists of a graph ([g.update(h)]). *)
Inductive step : store * list TaintTraceGraph -> store * list TaintTraceGraph -> Prop :=
| step_construct st gs r contents st1 b i e st2 g :
    format_source st r contents = inr (st1, (b, i, e)) ->
    TaintTraceGraph__init__ st1 b i e = inr (st2, g) ->
    step (st, gs) (st2, gs ++ [g])
| step_update st gs i j g h :
    gs !! i = Some g -> gs !! j = Some h ->
    step (st, gs) (st, <[i := update g h]> gs).

Inductive reachable : store * list TaintTraceGraph -> Prop :=
| reachable_start : reachable ([], [])
| reachable_step s s' : reachable s -> step s s' -> reachable s'.

(** ** Sample data *)

Definition origin : position := Position 0 0 0.

Definition span_at (lo hi : Z) : span :=
  Span (Position 0 0 lo) (Position 0 0 hi).

(** Two traces at offset 0: one over the text of one double quote, one over
    the six characters [#quot;]. *)
Definition quote_raw : TaintTrace :=
  mkTaintTrace 0 (Position 0 0 0) (Position 0 0 1) 0 (String Text.dquote "").
Definition quote_spelled : TaintTrace :=
  mkTaintTrace 1 (Position 0 0 0) (Position 0 0 6) 0 "#quot;".

(** The text of one newline. *)
Definition one_newline : string := String Text.newline "".

(** A trace [shared] that is the only source of one graph and, as an equal
    trace of another finding, the only sink of another graph. *)
Definition shared : TaintTrace := mkTaintTrace 0 origin origin 7 "x".
Definition shared' : TaintTrace := mkTaintTrace 3 origin origin 7 "x".
Definition cross_g : TaintTraceGraph :=
  mkTaintTraceGraph [shared] [] [mkTaintTrace 1 origin origin 9 "y"].
Definition cross_h : TaintTraceGraph :=
  mkTaintTraceGraph [mkTaintTrace 2 origin origin 1 "z"] [] [shared'].

(** The traces of scenario A, created in the order B, A, C, and a fourth
    trace D; [fresh n] is the store of [n] traces just created. *)
Definition node_B : TaintTrace :=
  mkTaintTrace 0 (Position 0 0 10) (Position 0 0 11) 10 "B".
Definition node_A : TaintTrace :=
  mkTaintTrace 1 (Position 0 0 5) (Position 0 0 6) 5 "A".
Definition node_C : TaintTrace :=
  mkTaintTrace 2 (Position 0 0 20) (Position 0 0 21) 20 "C".
Definition node_D : TaintTrace :=
  mkTaintTrace 3 (Position 0 0 30) (Position 0 0 31) 30 "D".
Definition fresh (n : nat) : store := replicate n [].

(** A run on the text [abcdef]: two findings of one rule with the same
    source [a] (offset 0) and the sinks [c] (offset 2) and [e] (offset 4), and
    a finding whose trace has no source. *)
Definition sample_contents : string := "abcdef".
Definition finding_c : finding :=
  Finding "rule" (span_at 2 3) (Some (DataflowTrace [span_at 0 1] [])).
Definition finding_e : finding :=
  Finding "rule" (span_at 4 5) (Some (DataflowTrace [span_at 0 1] [])).
Definition finding_no_source : finding :=
  Finding "rule" (span_at 2 3) (Some (DataflowTrace [] [])).

(** The traces that the run on [finding_c; finding_e] creates, its final
    store and the graphs of the two findings. *)
Definition trace_a1 : TaintTrace :=
  mkTaintTrace 0 (Position 0 0 0) (Position 0 0 1) 0 "a".
Definition trace_c : TaintTrace :=
  mkTaintTrace 1 (Position 0 0 2) (Position 0 0 3) 2 "c".
Definition trace_a2 : TaintTrace :=
  mkTaintTrace 2 (Position 0 0 0) (Position 0 0 1) 0 "a".
Definition trace_e : TaintTrace :=
  mkTaintTrace 3 (Position 0 0 4) (Position 0 0 5) 4 "e".
Definition sample_store : store := [[trace_c]; []; [trace_e]; []].
Definition graph_c : TaintTraceGraph := mkTaintTraceGraph [trace_a1] [] [trace_c].
Definition graph_e : TaintTraceGraph := mkTaintTraceGraph [trace_a2] [] [trace_e].

(** Every graph of the dict satisfies [P]. *)
Definition all_graphs (P : TaintTraceGraph -> Prop)
  (results : list (string * list TaintTraceGraph)) : Prop :=
  Forall (fun kv => Forall P (snd kv)) results.

(** ** Further functions of the file *)

(** [text_ranges_overlap(range1, range2)] *)
Definition text_ranges_overlap (range1 range2 : span) : bool :=
  (line (span_start range1) <=? line (span_end range2))
  && (line (span_end range1) >=? line (span_start range2))
  && (col (span_start range1) <? col (span_end range2))
  && (col (span_end range1) >? col (span_start range2)).

(** The text of a range: [file_contents[range['start']['offset']:range['end']['offset']]]. *)
Definition raw_text (contents : string) (r : span) : string :=
  Text.slice contents (pos_offset (span_start r)) (pos_offset (span_end r)).

(** The store and the graph of scenario A after the construction. *)
Definition store_A : store := [[node_C]; [node_B]; []].
Definition graph_A : TaintTraceGraph :=
  mkTaintTraceGraph [node_A; node_B] [] [node_C].

(** [r] has a dataflow trace. *)
Definition has_trace (r : finding) : bool :=
  match extra_dataflow_trace r with Some _ => true | None => false end.

(** A finding that the first loop gets past: it has no dataflow trace, or
    the text of one of its source ranges and the text of its own range are
    not the dot. *)
Definition processable (contents : string) (r : finding) : bool :=
  match extra_dataflow_trace r with
  | None => true
  | Some t =>
      existsb (fun sp => negb (String.eqb (raw_text contents sp) "."))
        (taint_source t)
      && negb (String.eqb (raw_text contents (finding_range r)) ".")
  end.

(** The path of a graph: its sources, its intermediates and its first
    sink. *)
Definition path_of (g : TaintTraceGraph) : list TaintTrace :=
  sources g ++ intermediates g ++ take 1 (sinks g).

(** In the store [st] the graph [g] is linked as a path: each trace of the
    path has the next one as its only successor and no sink has one. *)
Definition linked_as_path (st : store) (g : TaintTraceGraph) : Prop :=
  (forall i a b,
     path_of g !! i = Some a -> path_of g !! (i + 1)%nat = Some b ->
     st !! oid a = Some [b])
  /\ (forall k, In k (sinks g) -> st !! oid k = Some []).

(** The keys of a dict that gets each key of [ids] in turn, a key that is
    there keeping its place. *)
Definition add_key (keys : list string) (k : string) : list string :=
  if existsb (fun k' => String.eqb k' k) keys then keys else keys ++ [k].

Definition first_seen (ids : list string) : list string :=
  fold_left add_key ids [].

(** [results[k]], or the empty list for a key that is not there. *)
Fixpoint dict_get (results : list (string * list TaintTraceGraph)) (k : string)
  : list TaintTraceGraph :=
  match results with
  | [] => []
  | (k', gs) :: results' =>
      if String.eqb k' k then gs else dict_get results' k
  end.

(** The ranges of the sinks of each graph of a list. *)
Definition sink_ranges (gs : list TaintTraceGraph) : list (list span) :=
  map (fun g => map trace_range (sinks g)) gs.

(** Every trace of [g] is a trace of [g'], in the same role. *)
Definition extends (g g' : TaintTraceGraph) : Prop :=
  incl (sources g) (sources g')
  /\ incl (intermediates g) (intermediates g')
  /\ incl (sinks g) (sinks g').

(** In the clustering of the graphs [orig]: every graph given is within the
    current graph at its position. *)
Definition kept_in_place (orig cur : list TaintTraceGraph) : Prop :=
  forall i g, orig !! i = Some g ->
              exists g', cur !! i = Some g' /\ extends g g'.

(** Every graph given whose position is in [seen] is within the current
    graph at a position of [J]. *)
Definition absorbed_into (orig : list TaintTraceGraph) (J : list nat)
  (cur : list TaintTraceGraph) (seen : list nat) : Prop :=
  forall i g, In i seen -> orig !! i = Some g ->
              exists j g', In j J /\ cur !! j = Some g' /\ extends g g'.

(** Three graphs: [chain_a] and [chain_b] have equal sinks, [chain_b] and
    [chain_c] have equal sources, [chain_a] and [chain_c] share nothing. *)
Definition chain_a : TaintTraceGraph :=
  mkTaintTraceGraph [mkTaintTrace 0 origin origin 1 "a"] []
    [mkTaintTrace 1 origin origin 9 "s"].
Definition chain_b : TaintTraceGraph :=
  mkTaintTraceGraph [mkTaintTrace 2 origin origin 3 "b"] []
    [mkTaintTrace 3 origin origin 9 "s"].
Definition chain_c : TaintTraceGraph :=
  mkTaintTraceGraph [mkTaintTrace 4 origin origin 3 "b"] []
    [mkTaintTrace 5 origin origin 12 "u"].

(** ** Rendering *)

(** [str(n)] for an integer [n]: its decimal digits, after a minus sign for
    a negative one. *)
Definition str_int (n : Z) : string := NilZero.string_of_int (Z.to_int n).

(** The four sets of strings that [to_graph] builds; its text joins the
    elements of each, in the order in which Python iterates over the set,
    which is left out here. *)
Record graph_sets := mkGraphSets {
  nodes : gset string;
  source_names : gset string;
  intermediate_names : gset string;
  sink_names : gset string
}.

Section Rendering.

Variable hash : Z * string -> Z.

(** [mermaid_node_name]: the hash, then the escaped text between double
    quotes and square brackets, then a space. *)
Definition mermaid_node_name (self : TaintTrace) : string :=
  String.append (str_int (__hash__ hash self))
    (String "["%char
       (String Text.dquote
          (String.append (context self) (String Text.dquote "] ")))).

(** The string that [to_mermaid_node] yields for an edge. *)
Definition edge_line (e : Z * Z) : string :=
  String.append (str_int (fst e)) (String.append " --> " (str_int (snd e))).

(** The sets [nodes], [source_names], [intermediate_names] and [sink_names]
    of [to_graph]. *)
Definition to_graph_sets (st : store) (g : TaintTraceGraph) : graph_sets :=
  {| nodes := list_to_set (map edge_line (emitted hash st g));
     source_names := list_to_set (map mermaid_node_name (sources g));
     intermediate_names :=
       list_to_set (map mermaid_node_name (intermediates g));
     sink_names := list_to_set (map mermaid_node_name (sinks g)) |}.

End Rendering.

(** ** The traces of one run

    The script makes a trace in one place, [TaintTrace(x)] in
    [associate_info], from a range of the text that was read once: [x] is
    made from the text [contents] when its offset is the start offset of its
    range and its raw text is the text of that range in [contents]. *)
Definition from_text (contents : string) (x : TaintTrace) : Prop :=
  offset x = pos_offset (start x)
  /\ _context x = raw_text contents (trace_range x).

(** The traces of a graph: what its three lists hold. *)
Definition traces_of (g : TaintTraceGraph) : list TaintTrace :=
  sources g ++ intermediates g ++ sinks g.

(** * Properties *)

(** ** Escaping *)

Lemma append_cons (x : ascii) (a b : string) :
  String.append (String x a) b = String x (String.append a b).
Proof. reflexivity. Qed.

Lemma append_assoc (a b c : string) :
  String.append (String.append a b) c = String.append a (String.append b c).
Proof.
  induction a as [|x a IH]; [reflexivity |].
  rewrite !append_cons. now rewrite IH.
Qed.

Lemma append_nil_r (a : string) : String.append a "" = a.
Proof.
  induction a as [|x a IH]; [reflexivity |].
  rewrite append_cons. now rewrite IH.
Qed.

Lemma replace_append old new (a b : string) :
  Text.replace old new (String.append a b)
  = String.append (Text.replace old new a) (Text.replace old new b).
Proof.
  induction a as [|x a IH]; [reflexivity |].
  rewrite append_cons. simpl. rewrite IH.
  destruct (Ascii.eqb x old); [now rewrite append_assoc | reflexivity].
Qed.

Lemma escape_append (a b : string) :
  escape (String.append a b) = String.append (escape a) (escape b).
Proof. unfold escape. now rewrite !replace_append. Qed.

Lemma escape_char (c : ascii) : escape (String c "") = token c.
Proof.
  unfold escape, token. simpl.
  destruct (Ascii.eqb c Text.dquote) eqn:E1; [reflexivity |].
  simpl. destruct (Ascii.eqb c Text.apos) eqn:E2; [reflexivity |].
  simpl. destruct (Ascii.eqb c Text.lt) eqn:E3; [reflexivity |].
  simpl. destruct (Ascii.eqb c Text.gt) eqn:E4; [reflexivity |].
  simpl. destruct (Ascii.eqb c Text.newline) eqn:E5; reflexivity.
Qed.

(** The five sequential replacements amount to one pass that turns each
    character into its token. *)
Lemma escape_expand (s : string) : escape s = expand s.
Proof.
  induction s as [|c s IH]; [reflexivity |].
  change (String c s) with (String.append (String c "") s).
  rewrite escape_append, escape_char, IH. reflexivity.
Qed.

Lemma expand_append (a b : string) :
  expand (String.append a b) = String.append (expand a) (expand b).
Proof. rewrite <- !escape_expand. apply escape_append. Qed.

Lemma count_append (c : ascii) (a b : string) :
  count c (String.append a b) = (count c a + count c b)%nat.
Proof.
  induction a as [|x a IH]; [reflexivity |].
  rewrite append_cons. simpl. rewrite IH. lia.
Qed.

(** Case analysis on which of the five characters [c] is, if any. *)
Ltac token_cases c :=
  unfold token;
  destruct (Ascii.eqb_spec c Text.dquote) as [->|?]; [|
  destruct (Ascii.eqb_spec c Text.apos) as [->|?]; [|
  destruct (Ascii.eqb_spec c Text.lt) as [->|?]; [|
  destruct (Ascii.eqb_spec c Text.gt) as [->|?]; [|
  destruct (Ascii.eqb_spec c Text.newline) as [->|?]]]]].

Lemma count_single_ne (c d : ascii) : d <> c -> count c (String d "") = 0%nat.
Proof. intros H. simpl. now destruct (Ascii.eqb_spec d c). Qed.

Lemma count_token_dquote c : count Text.dquote (token c) = 0%nat.
Proof. token_cases c; try reflexivity. now apply count_single_ne. Qed.

Lemma count_token_apos c : count Text.apos (token c) = 0%nat.
Proof. token_cases c; try reflexivity. now apply count_single_ne. Qed.

Lemma count_token_newline c : count Text.newline (token c) = 0%nat.
Proof. token_cases c; try reflexivity. now apply count_single_ne. Qed.

Lemma count_token_lt c :
  count Text.lt (token c) = count Text.newline (String c "").
Proof.
  token_cases c; try reflexivity.
  rewrite !count_single_ne; congruence.
Qed.

Lemma count_token_gt c :
  count Text.gt (token c) = count Text.newline (String c "").
Proof.
  token_cases c; try reflexivity.
  rewrite !count_single_ne; congruence.
Qed.

Lemma count_expand_zero (c : ascii) (s : string) :
  (forall d, count c (token d) = 0%nat) -> count c (expand s) = 0%nat.
Proof.
  intros H. induction s as [|d s IH]; [reflexivity |].
  simpl. now rewrite count_append, H, IH.
Qed.

Lemma count_expand_newline (c : ascii) (s : string) :
  (forall d, count c (token d) = count Text.newline (String d "")) ->
  count c (expand s) = count Text.newline s.
Proof.
  intros H. induction s as [|d s IH]; [reflexivity |].
  change (expand (String d s)) with (String.append (token d) (expand s)).
  rewrite count_append, H, IH. simpl. lia.
Qed.

Lemma expand_token (c : ascii) : c <> Text.newline -> expand (token c) = token c.
Proof.
  intros Hc. token_cases c; try reflexivity; [congruence |].
  simpl. rewrite append_nil_r. unfold token.
  repeat match goal with
         | |- context [Ascii.eqb c ?d] => destruct (Ascii.eqb_spec c d); [congruence |]
         end.
  reflexivity.
Qed.

(** Text without a newline escapes to a fixed point of the escaping. *)
Lemma expand_idempotent (s : string) :
  count Text.newline s = 0%nat -> expand (expand s) = expand s.
Proof.
  induction s as [|c s IH]; [reflexivity |].
  simpl. destruct (Ascii.eqb_spec c Text.newline) as [->|Hc]; [discriminate |].
  intros H. rewrite expand_append, expand_token, IH; auto.
Qed.

(** With a newline the escaped text holds a [<], which escaping it again
    removes. *)
Lemma expand_not_idempotent (s : string) :
  count Text.newline s <> 0%nat -> expand (expand s) <> expand s.
Proof.
  intros H E.
  assert (Hlt : count Text.lt (expand (expand s)) = 0%nat).
  { rewrite (count_expand_newline _ _ count_token_lt).
    apply count_expand_zero, count_token_newline. }
  rewrite E, (count_expand_newline _ _ count_token_lt) in Hlt. contradiction.
Qed.

(** C4, as amended.  Escaping turns every character into its token: no
    double quote, apostrophe or newline is left, and the only [<] and [>]
    left are those of the [<br>] written for a newline.  Escaping the
    escaped text again changes nothing exactly when the raw text has no
    newline (the four rules for the double quote, apostrophe, [<] and [>]). *)
Theorem escape_converts_and_idempotent_without_newline (s : string) :
  escape s = expand s
  /\ count Text.dquote (escape s) = 0%nat
  /\ count Text.apos (escape s) = 0%nat
  /\ count Text.newline (escape s) = 0%nat
  /\ count Text.lt (escape s) = count Text.newline s
  /\ count Text.gt (escape s) = count Text.newline s
  /\ (escape (escape s) = escape s <-> count Text.newline s = 0%nat).
Proof.
  rewrite !escape_expand. repeat split.
  - apply count_expand_zero, count_token_dquote.
  - apply count_expand_zero, count_token_apos.
  - apply count_expand_zero, count_token_newline.
  - apply count_expand_newline, count_token_lt.
  - apply count_expand_newline, count_token_gt.
  - intros E. destruct (count Text.newline s) eqn:Hn; [reflexivity |].
    exfalso. apply (expand_not_idempotent s); [lia | exact E].
  - apply expand_idempotent.
Qed.

(** C4 as stated fails: the escaped form of a newline is [<br>], and
    escaping that gives [&lt;br&gt;]. *)
Lemma escape_not_idempotent_on_newline :
  escape (escape one_newline) <> escape one_newline.
Proof. vm_compute. discriminate. Qed.

(** ** Equality and hashing of traces *)

Lemma eq_spec (a b : TaintTrace) :
  __eq__ a b = true <-> offset a = offset b /\ context a = context b.
Proof.
  unfold __eq__. rewrite andb_true_iff, Z.eqb_eq, String.eqb_eq. reflexivity.
Qed.

Lemma eq_refl_trace (a : TaintTrace) : __eq__ a a = true.
Proof. now apply eq_spec. Qed.

Lemma eq_sym_trace (a b : TaintTrace) : __eq__ a b = __eq__ b a.
Proof.
  apply eq_true_iff_eq. rewrite !eq_spec. intuition congruence.
Qed.

(** ** Traces over one source text *)

Lemma substring_nil (a n : nat) : substring a n "" = "".
Proof. destruct a, n; reflexivity. Qed.

Lemma substring_extend (s : string) (a n m : nat) :
  exists rest, substring a (n + m) s = String.append (substring a n s) rest.
Proof.
  revert a n. induction s as [|c s IH]; intros a n.
  - exists "". now rewrite !substring_nil.
  - destruct a as [|a].
    + destruct n as [|n].
      * exists (substring 0 m (String c s)). reflexivity.
      * destruct (IH 0%nat n) as [rest E]. exists rest.
        cbn [Nat.add substring]. now rewrite E.
    + destruct (IH a n) as [rest E]. exists rest. exact E.
Qed.

Lemma expand_nil_inv (s : string) : expand s = "" -> s = "".
Proof.
  destruct s as [|c s]; [reflexivity |]. simpl.
  unfold token.
  repeat match goal with
         | |- context [Ascii.eqb c ?d] => destruct (Ascii.eqb c d)
         end; discriminate.
Qed.

Lemma append_cancel_nil (a b : string) : String.append a b = a -> b = "".
Proof.
  induction a as [|x a IH]; [auto |].
  rewrite append_cons. intros [= H]. auto.
Qed.

Lemma escape_prefix_inj (p rest : string) :
  escape (String.append p rest) = escape p -> rest = "".
Proof.
  rewrite escape_append. intros H%append_cancel_nil.
  rewrite escape_expand in H. now apply expand_nil_inv.
Qed.

(** Two slices of one text that start at the same place and escape alike
    are the same text. *)
Lemma slice_escape_inj (c : string) (lo hi hi' : Z) :
  escape (Text.slice c lo hi) = escape (Text.slice c lo hi') ->
  Text.slice c lo hi = Text.slice c lo hi'.
Proof.
  unfold Text.slice. cbv zeta.
  set (a := Z.to_nat (Text.adjust _ lo)).
  set (n := Z.to_nat (_ - _)). set (n' := Z.to_nat (_ - _)).
  intros H. destruct (Nat.le_ge_cases n n') as [Hle | Hle].
  - destruct (substring_extend c a n (n' - n)) as [rest E].
    replace (n + (n' - n))%nat with n' in E by lia.
    rewrite E in H |- *. symmetry in H. apply escape_prefix_inj in H.
    subst rest. now rewrite append_nil_r.
  - destruct (substring_extend c a n' (n - n')) as [rest E].
    replace (n' + (n - n'))%nat with n in E by lia.
    rewrite E in H |- *. apply escape_prefix_inj in H.
    subst rest. now rewrite append_nil_r.
Qed.

(** Among the traces that the converter makes from the ranges of one source
    text, [==] is equality of offset and raw text. *)
Lemma eq_by_raw_context_within_one_text (c : string) (st st' : store)
  (r r' : span) :
  let a := snd (TaintTrace__init__ st r
                  (Text.slice c (pos_offset (span_start r))
                     (pos_offset (span_end r)))) in
  let b := snd (TaintTrace__init__ st' r'
                  (Text.slice c (pos_offset (span_start r'))
                     (pos_offset (span_end r')))) in
  __eq__ a b = true <-> offset a = offset b /\ _context a = _context b.
Proof.
  cbv zeta. rewrite eq_spec. unfold context. cbn [TaintTrace__init__ snd offset _context].
  split; intros [Ho Hc]; (split; [exact Ho |]).
  - rewrite <- Ho in Hc |- *. now apply slice_escape_inj.
  - now rewrite Hc.
Qed.

(** The two sample traces [quote_raw] and [quote_spelled] are what the
    converter makes of the range of a whole source text, for the text of one
    double quote and for the text [#quot;]. *)
Example quote_traces_created :
  snd (associate_info [] [span_at 0 1] (String Text.dquote "")) = [quote_raw]
  /\ snd (associate_info [[]] [span_at 0 6] "#quot;") = [quote_spelled].
Proof. split; reflexivity. Qed.

(** Equality and hashing in terms of what the code reads.  [a == b] holds
    iff the offsets are equal and the escaped texts (the property [context])
    are equal; equal offsets and equal raw texts give equal traces, and for
    two traces made from ranges of one source text the converse holds as
    well; the hash is taken of the pair (offset, escaped text) alone, so equal
    traces have equal hashes. *)
Lemma eq_iff_offset_and_escaped_context
  (hash : Z * string -> Z) (a b : TaintTrace) :
  (__eq__ a b = true <-> offset a = offset b /\ context a = context b)
  /\ (offset a = offset b /\ _context a = _context b -> __eq__ a b = true)
  /\ (forall c st st' r r',
        let a' := snd (TaintTrace__init__ st r
                         (Text.slice c (pos_offset (span_start r))
                            (pos_offset (span_end r)))) in
        let b' := snd (TaintTrace__init__ st' r'
                         (Text.slice c (pos_offset (span_start r'))
                            (pos_offset (span_end r')))) in
        __eq__ a' b' = true
        <-> offset a' = offset b' /\ _context a' = _context b')
  /\ __hash__ hash a = hash (offset a, context a)
  /\ (__eq__ a b = true -> __hash__ hash a = __hash__ hash b).
Proof.
  split; [apply eq_spec |]. split; [| split; [| split; [reflexivity |]]].
  - intros [Ho Hc]. apply eq_spec. unfold context. now rewrite Ho, Hc.
  - apply eq_by_raw_context_within_one_text.
  - intros [Ho Hc]%eq_spec. unfold __hash__, hash_key. now rewrite Ho, Hc.
Qed.

(** Two traces over two different source texts can be equal with different
    raw texts.  No run makes such a pair: a run has one source text. *)
Example eq_not_by_raw_context :
  ~ (__eq__ quote_raw quote_spelled = true
     <-> offset quote_raw = offset quote_spelled
         /\ _context quote_raw = _context quote_spelled).
Proof.
  intros [H _]. destruct (H eq_refl) as [_ Hc]. discriminate Hc.
Qed.

Lemma eq_trans_trace (a b c : TaintTrace) :
  __eq__ a b = true -> __eq__ b c = true -> __eq__ a c = true.
Proof. rewrite !eq_spec. intuition congruence. Qed.

(** ** Sets of traces *)

Lemma set_contains_spec (s : pyset) (x : TaintTrace) :
  set_contains s x = true <-> exists y, In y s /\ __eq__ y x = true.
Proof. unfold set_contains. apply existsb_exists. Qed.

Lemma set_add_contains (s : pyset) (x y : TaintTrace) :
  set_contains (set_add s x) y = true
  <-> set_contains s y = true \/ __eq__ x y = true.
Proof.
  unfold set_add. destruct (set_contains s x) eqn:Hx.
  - split; [auto |]. intros [H | H]; [exact H |].
    apply set_contains_spec in Hx as (z & Hz & Hzx).
    apply set_contains_spec. exists z. split; [exact Hz |].
    now apply eq_trans_trace with x.
  - unfold set_contains. rewrite existsb_app. simpl.
    rewrite orb_true_iff, orb_false_r. reflexivity.
Qed.

Lemma set_update_contains (it : list TaintTrace) (s : pyset) (y : TaintTrace) :
  set_contains (set_update s it) y = true
  <-> set_contains s y = true \/ exists x, In x it /\ __eq__ x y = true.
Proof.
  unfold set_update. revert s. induction it as [|x it IH]; intros s; simpl.
  - split; [auto |]. intros [H | (x & [] & _)]; exact H.
  - rewrite IH, set_add_contains. split.
    + intros [[H | H] | (z & Hz & Hzy)]; eauto.
    + intros [H | (z & [-> | Hz] & Hzy)]; eauto.
Qed.

Lemma set_contains_set (it : list TaintTrace) (y : TaintTrace) :
  set_contains (set_ it) y = true <-> exists x, In x it /\ __eq__ x y = true.
Proof.
  unfold set_. rewrite set_update_contains. simpl.
  split; [intros [H | H]; [discriminate | exact H] | auto].
Qed.

Lemma truthy_spec (s : pyset) : truthy s = true <-> exists x, In x s.
Proof.
  destruct s as [|x s]; simpl.
  - split; [discriminate | intros [x []]].
  - split; [exists x; now left | reflexivity].
Qed.

Lemma set_add_truthy (s : pyset) (x : TaintTrace) : truthy (set_add s x) = true.
Proof.
  unfold set_add. destruct (set_contains s x) eqn:Hx.
  - apply set_contains_spec in Hx as (y & Hy & _).
    apply truthy_spec. now exists y.
  - apply truthy_spec. exists x. apply in_or_app. right. now left.
Qed.

Lemma set_update_truthy (it : list TaintTrace) (s : pyset) :
  truthy (set_update s it) = truthy s || truthy it.
Proof.
  unfold set_update. revert s. induction it as [|x it IH]; intros s; simpl.
  - now rewrite orb_false_r.
  - rewrite IH, set_add_truthy. simpl. now rewrite orb_true_r.
Qed.

(** The intersection of [set(l1)] with [l2] is non-empty iff the two lists
    overlap. *)
Lemma intersection_truthy (l1 l2 : list TaintTrace) :
  truthy (intersection (set_ l1) l2) = true <-> overlap l1 l2.
Proof.
  unfold intersection, set_. rewrite set_update_truthy. simpl.
  rewrite truthy_spec. unfold overlap. split.
  - intros (b & [Hb Hc]%filter_In).
    apply set_contains_set in Hc as (a & Ha & Hab). eauto.
  - intros (a & b & Ha & Hb & Hab). exists b. apply filter_In.
    split; [exact Hb |]. apply set_contains_set. eauto.
Qed.

Lemma py_or_truthy (a b : pyset) : truthy (py_or a b) = truthy a || truthy b.
Proof. unfold py_or. destruct (truthy a) eqn:Ha; [exact Ha | reflexivity]. Qed.

Lemma overlap_sym (l1 l2 : list TaintTrace) : overlap l1 l2 -> overlap l2 l1.
Proof.
  intros (a & b & Ha & Hb & Hab). exists b, a.
  now rewrite eq_sym_trace.
Qed.

(** ** Intersection and merge of graphs *)

Lemma intersects_spec (g h : TaintTraceGraph) :
  intersects g h = true
  <-> overlap (sources g) (sources h)
      \/ overlap (intermediates g) (intermediates h)
      \/ overlap (sinks g) (sinks h).
Proof.
  unfold intersects. rewrite !py_or_truthy, !orb_true_iff.
  now rewrite !intersection_truthy.
Qed.

(** C6.  [g.intersects(h)] is true iff the sources of [g] and [h] overlap,
    or their intermediates overlap, or their sinks overlap.  Without an
    overlap within one role it is false whatever else the graphs share: a
    trace that is a source of [cross_g] and, as the same (offset, context)
    trace, a sink of [cross_h] does not make them intersect. *)
Theorem intersects_iff_same_role_overlap (g h : TaintTraceGraph) :
  (intersects g h = true
   <-> overlap (sources g) (sources h)
       \/ overlap (intermediates g) (intermediates h)
       \/ overlap (sinks g) (sinks h))
  /\ (~ overlap (sources g) (sources h) ->
      ~ overlap (intermediates g) (intermediates h) ->
      ~ overlap (sinks g) (sinks h) ->
      intersects g h = false)
  /\ (overlap (sources cross_g) (sinks cross_h)
      /\ intersects cross_g cross_h = false
      /\ intersects cross_h cross_g = false).
Proof.
  split; [apply intersects_spec |]. split.
  - intros Hs Hi Hk. destruct (intersects g h) eqn:E; [| reflexivity].
    apply intersects_spec in E. tauto.
  - split; [| split; reflexivity].
    exists shared, shared'. simpl. auto.
Qed.

(** C7.  [g.intersects(h) == h.intersects(g)] for all graphs [g] and [h]. *)
Theorem intersects_symmetric (g h : TaintTraceGraph) :
  intersects g h = intersects h g.
Proof.
  apply eq_true_iff_eq. rewrite !intersects_spec.
  split; intros [H | [H | H]]; auto using overlap_sym.
Qed.

(** C8.  After [g.update(h)] each list of [g] is its old list followed by
    the list of [h], nothing removed, so its length is the sum of the two
    lengths. *)
Theorem update_concatenates (g h : TaintTraceGraph) :
  sources (update g h) = sources g ++ sources h
  /\ intermediates (update g h) = intermediates g ++ intermediates h
  /\ sinks (update g h) = sinks g ++ sinks h
  /\ len (sources (update g h)) = len (sources g) + len (sources h)
  /\ len (intermediates (update g h))
     = len (intermediates g) + len (intermediates h)
  /\ len (sinks (update g h)) = len (sinks g) + len (sinks h).
Proof.
  unfold update, len. simpl. rewrite !length_app. repeat split; lia.
Qed.

(** ** Indexing and loops *)

Lemma getitem_nil {A} (i : Z) : getitem (@nil A) i = inl IndexError.
Proof.
  unfold getitem. simpl.
  destruct ((_ <? 0) || _); reflexivity.
Qed.

Lemma getitem_nat {A} (l : list A) (i : nat) (x : A) :
  l !! i = Some x -> getitem l (Z.of_nat i) = inr x.
Proof.
  intros H. pose proof (lookup_lt_Some _ _ _ H) as Hlt.
  assert (H0 : (Z.of_nat i <? 0) = false) by (apply Z.ltb_ge; lia).
  assert (H1 : (Z.of_nat (length l) <=? Z.of_nat i) = false)
    by (apply Z.leb_gt; lia).
  unfold getitem. cbv zeta. rewrite H0. cbv iota. rewrite H0, H1.
  cbn [orb]. rewrite Nat2Z.id, H. reflexivity.
Qed.

Lemma getitem_first {A} (x : A) (l : list A) : getitem (x :: l) 0 = inr x.
Proof. now apply (getitem_nat (x :: l) 0). Qed.

Lemma getitem_last {A} (l : list A) (x : A) : getitem (l ++ [x]) (-1) = inr x.
Proof.
  unfold getitem. cbv zeta. rewrite length_app.
  change (-1 <? 0) with true. cbv iota. cbn [length].
  replace (-1 + Z.of_nat (length l + 1)) with (Z.of_nat (length l)) by lia.
  replace (Z.of_nat (length l) <? 0) with false by (symmetry; apply Z.ltb_ge; lia).
  replace (Z.of_nat (length l + 1) <=? Z.of_nat (length l)) with false
    by (symmetry; apply Z.leb_gt; lia).
  cbn [orb]. rewrite Nat2Z.id.
  now rewrite lookup_app_r, Nat.sub_diag by lia.
Qed.

Lemma for_each_app {I S} (l1 l2 : list I) (body : I -> S -> result S) (st : S) :
  for_each (l1 ++ l2) body st
  = let* st' := for_each l1 body st in for_each l2 body st'.
Proof.
  revert st. induction l1 as [|i l1 IH]; intros st; simpl; [reflexivity |].
  destruct (body i st) as [e | st']; simpl; [reflexivity | apply IH].
Qed.

(** ** Construction of a graph *)

Lemma set_singleton (x : TaintTrace) : set_ [x] = [x].
Proof. reflexivity. Qed.

Lemma chain_from (rest pre : list TaintTrace) (st : store) :
  for_each (map Z.of_nat (seq (length pre) (length rest - 1)))
    (fun i st =>
       let* a := getitem (pre ++ rest) i in
       let* b := getitem (pre ++ rest) (i + 1) in
       ret (set_next_traces st a [b]))
    st
  = inr (link st rest).
Proof.
  revert pre st. induction rest as [|a rest IH]; intros pre st; [reflexivity |].
  destruct rest as [|b rest]; [reflexivity |].
  replace (length (a :: b :: rest) - 1)%nat with (S (length rest)) by (simpl; lia).
  cbn [seq map for_each].
  rewrite (getitem_nat _ _ a) by (now rewrite lookup_app_r, Nat.sub_diag by lia).
  replace (Z.of_nat (length pre) + 1) with (Z.of_nat (S (length pre))) by lia.
  rewrite (getitem_nat _ _ b)
    by (rewrite lookup_app_r by lia;
        now replace (S (length pre) - length pre)%nat with 1%nat by lia).
  cbn [bind ret].
  specialize (IH (pre ++ [a]) (set_next_traces st a [b])).
  rewrite <- app_assoc, length_app in IH. simpl in IH.
  replace (length pre + 1)%nat with (S (length pre)) in IH by lia.
  rewrite Nat.sub_0_r in IH. exact IH.
Qed.

(** The loop of [__init__] over one list links that list. *)
Lemma chain_link (st : store) (l : list TaintTrace) : chain st l = inr (link st l).
Proof.
  unfold chain, range, len.
  replace (Z.to_nat (Z.of_nat (length l) - 1)) with (length l - 1)%nat by lia.
  apply (chain_from l [] st).
Qed.

Lemma link_app (l1 : list TaintTrace) (x : TaintTrace) (l2 : list TaintTrace)
  (st : store) :
  link st (l1 ++ x :: l2) = link (link st (l1 ++ [x])) (x :: l2).
Proof.
  revert st. induction l1 as [|a l1 IH]; intros st; [reflexivity |].
  destruct l1 as [|y l1]; [reflexivity |].
  exact (IH (set_next_traces st a [y])).
Qed.

Lemma link_snoc (l : list TaintTrace) (a b : TaintTrace) (st : store) :
  link st (l ++ [a; b]) = set_next_traces (link st (l ++ [a])) a [b].
Proof. now rewrite link_app. Qed.

(** What [__init__] does: it fails on an empty list of sources or of sinks,
    and otherwise links the path made of the sorted sources, the sorted
    intermediates and the first sink. *)
Lemma init_spec (st : store) (S I K : list TaintTrace) :
  TaintTraceGraph__init__ st S I K
  = match sorted S, sorted K with
    | [], _ => inl IndexError
    | _ :: _, [] => inl IndexError
    | _ :: _, k :: _ =>
        inr (link st (sorted S ++ sorted I ++ [k]),
             mkTaintTraceGraph (sorted S) (sorted I) (sorted K))
    end.
Proof.
  unfold TaintTraceGraph__init__. cbv zeta. rewrite chain_link. cbn [bind].
  destruct (sorted S) as [|s0 ss] eqn:ES.
  { now rewrite getitem_nil. }
  destruct (exists_last (l := s0 :: ss)) as (pre & last & Epre); [discriminate |].
  rewrite Epre, getitem_last. cbn [bind].
  destruct (sorted I) as [|i0 ii] eqn:EI.
  - change (len [] >? 0) with false. cbv iota.
    destruct (sorted K) as [|k0 kk].
    + now rewrite getitem_nil.
    + rewrite getitem_first. cbn [bind]. rewrite chain_link. cbn [bind ret].
      rewrite <- app_assoc. cbn [app]. now rewrite link_snoc.
  - assert (Hlen : (len (i0 :: ii) >? 0) = true).
    { unfold len. simpl length. apply Z.gtb_lt. lia. }
    rewrite Hlen, getitem_first. cbn [bind]. rewrite chain_link. cbn [bind].
    destruct (exists_last (l := i0 :: ii)) as (ipre & ilast & Eipre);
      [discriminate |].
    rewrite Eipre at 1. rewrite getitem_last. cbn [bind].
    destruct (sorted K) as [|k0 kk].
    + now rewrite getitem_nil.
    + rewrite getitem_first. cbn [bind ret]. f_equal. f_equal.
      change ((i0 :: ii) ++ [k0]) with (i0 :: (ii ++ [k0])).
      rewrite (link_app (pre ++ [last]) i0 (ii ++ [k0])).
      rewrite <- (app_assoc pre [last] [i0]). cbn [app].
      rewrite link_snoc.
      change (i0 :: ii ++ [k0]) with ((i0 :: ii) ++ [k0]).
      rewrite Eipre, <- app_assoc. cbn [app]. now rewrite link_snoc.
Qed.

(** ** Sorting *)

Lemma insort_perm (x : TaintTrace) (l : list TaintTrace) :
  Permutation (insort x l) (x :: l).
Proof.
  induction l as [|y l IH]; simpl; [reflexivity |].
  destruct (__lt__ y x); [| reflexivity].
  rewrite IH. apply perm_swap.
Qed.

Lemma sorted_perm (l : list TaintTrace) : Permutation (sorted l) l.
Proof.
  induction l as [|x l IH]; simpl; [reflexivity |].
  now rewrite insort_perm, IH.
Qed.

Lemma sorted_length (l : list TaintTrace) : length (sorted l) = length l.
Proof. apply Permutation_length, sorted_perm. Qed.

Lemma sorted_nil_inv (l : list TaintTrace) : sorted l = [] -> l = [].
Proof.
  intros H. apply length_zero_iff_nil. now rewrite <- sorted_length, H.
Qed.

Lemma insort_ascending (x : TaintTrace) (l : list TaintTrace) :
  StronglySorted (fun a b => offset a <= offset b) l ->
  StronglySorted (fun a b => offset a <= offset b) (insort x l).
Proof.
  induction 1 as [|y l Hl IH Hy]; simpl.
  - constructor; constructor.
  - unfold __lt__. destruct (Z.ltb_spec (offset y) (offset x)) as [Hlt | Hge].
    + constructor; [exact IH |].
      eapply Permutation_Forall; [symmetry; apply insort_perm |].
      constructor; [lia | exact Hy].
    + constructor; [now constructor |].
      constructor; [exact Hge |].
      eapply List.Forall_impl; [| exact Hy]. simpl. intros; lia.
Qed.

(** The result of [sorted] ascends by offset. *)
Lemma sorted_ascending (l : list TaintTrace) :
  StronglySorted (fun a b => offset a <= offset b) (sorted l).
Proof.
  induction l as [|x l IH]; simpl; [constructor | now apply insort_ascending].
Qed.

Lemma insort_stable (k : Z) (x : TaintTrace) (l : list TaintTrace) :
  StronglySorted (fun a b => offset a <= offset b) l ->
  List.filter (fun y => offset y =? k) (insort x l)
  = List.filter (fun y => offset y =? k) (x :: l).
Proof.
  induction 1 as [|y l Hl IH Hy]; [reflexivity |].
  cbn [insort]. unfold __lt__.
  destruct (Z.ltb_spec (offset y) (offset x)) as [Hlt | Hge]; [| reflexivity].
  cbn [List.filter] in *. rewrite IH.
  destruct (Z.eqb_spec (offset x) k), (Z.eqb_spec (offset y) k);
    try reflexivity; lia.
Qed.

(** [sorted] is stable: traces of one offset keep their order. *)
Lemma sorted_stable (k : Z) (l : list TaintTrace) :
  List.filter (fun y => offset y =? k) (sorted l)
  = List.filter (fun y => offset y =? k) l.
Proof.
  induction l as [|x l IH]; [reflexivity |].
  cbn [sorted foldr]. fold (sorted l).
  rewrite insort_stable by apply sorted_ascending.
  cbn [List.filter]. now rewrite IH.
Qed.

(** ** The store after linking a path *)

Lemma link_length (l : list TaintTrace) (st : store) :
  length (link st l) = length st.
Proof.
  revert st. induction l as [|a l IH]; intros st; [reflexivity |].
  destruct l as [|b l]; [reflexivity |].
  change (length (link (set_next_traces st a [b]) (b :: l)) = length st).
  rewrite IH. apply length_insert.
Qed.

(** Only the traces of a path that have a next one are written. *)
Lemma link_other (l : list TaintTrace) (st : store) (x : nat) :
  (forall a, In a (removelast l) -> oid a <> x) ->
  link st l !! x = st !! x.
Proof.
  revert st. induction l as [|a l IH]; intros st H; [reflexivity |].
  destruct l as [|b l]; [reflexivity |].
  change (link (set_next_traces st a [b]) (b :: l) !! x = st !! x).
  rewrite IH.
  - apply list_lookup_insert_ne, H. now left.
  - intros c Hc. apply H. now right.
Qed.

Lemma in_removelast {A} (x : A) (l : list A) : In x (removelast l) -> In x l.
Proof.
  induction l as [|a l IH]; [auto |].
  destruct l as [|b l]; [intros [] |].
  intros [-> | H]; [now left | right; now apply IH].
Qed.

(** On a path of distinct objects each trace ends with the next trace of the
    path as its only successor. *)
Lemma link_succ (l : list TaintTrace) (st : store) (i : nat) (a b : TaintTrace) :
  NoDup (map oid l) ->
  Forall (fun x => (oid x < length st)%nat) l ->
  l !! i = Some a -> l !! S i = Some b ->
  link st l !! oid a = Some [b].
Proof.
  revert st i. induction l as [|a0 l IH]; intros st i Hnd Hlt Ha Hb;
    [discriminate |].
  destruct l as [|b0 l]; [discriminate |].
  change (link (set_next_traces st a0 [b0]) (b0 :: l) !! oid a = Some [b]).
  inversion Hnd as [|? ? Hnotin Hnd']; subst.
  inversion Hlt as [|? ? Ha0 Hlt']; subst.
  destruct i as [|i].
  - injection Ha as <-. injection Hb as <-.
    rewrite link_other.
    + now apply list_lookup_insert_eq.
    + intros c Hc%in_removelast E. apply Hnotin. rewrite <- E.
      apply list_elem_of_In. exact (in_map oid _ _ Hc).
  - apply (IH _ i); auto.
    eapply List.Forall_impl; [| exact Hlt'].
    intros x Hx. unfold set_next_traces. now rewrite length_insert.
Qed.

Lemma link_inner (q : list TaintTrace) (z : TaintTrace) (st : store)
  (a : TaintTrace) :
  NoDup (map oid (q ++ [z])) ->
  Forall (fun x => (oid x < length st)%nat) (q ++ [z]) ->
  In a q -> exists b, link st (q ++ [z]) !! oid a = Some [b].
Proof.
  intros Hnd Hlt Ha.
  apply list_elem_of_In, list_elem_of_lookup in Ha as [i Hi].
  pose proof (lookup_lt_Some _ _ _ Hi) as Hlen.
  destruct (lookup_lt_is_Some_2 (q ++ [z]) (S i)) as [b Hb].
  { rewrite length_app. simpl. lia. }
  exists b. apply (link_succ _ _ i); auto.
  now apply lookup_app_l_Some.
Qed.

Lemma link_outside (q : list TaintTrace) (z : TaintTrace) (st : store)
  (x : nat) :
  ~ In x (map oid q) -> link st (q ++ [z]) !! x = st !! x.
Proof.
  intros H. apply link_other. rewrite removelast_last.
  intros a Ha E. apply H. rewrite <- E. now apply in_map.
Qed.

(** ** Counting edges *)

Lemma mermaid_length hash (st : store) (x : TaintTrace) :
  length (to_mermaid_node hash st x) = length (next_traces st x).
Proof. unfold to_mermaid_node. apply length_map. Qed.

Lemma edges_one_each hash (st : store) (l : list TaintTrace) :
  (forall x, In x l -> exists b, st !! oid x = Some [b]) ->
  length (flat_map (to_mermaid_node hash st) l) = length l.
Proof.
  induction l as [|x l IH]; intros H; [reflexivity |].
  cbn [flat_map]. rewrite length_app, mermaid_length, IH.
  - destruct (H x) as [b Hb]; [now left |].
    unfold next_traces. now rewrite Hb.
  - intros y Hy. apply H. now right.
Qed.

Lemma edges_none hash (st : store) (l : list TaintTrace) :
  (forall x, In x l -> st !! oid x = Some []) ->
  flat_map (to_mermaid_node hash st) l = [].
Proof.
  induction l as [|x l IH]; intros H; [reflexivity |].
  cbn [flat_map]. rewrite IH by (intros y Hy; apply H; now right).
  unfold to_mermaid_node, next_traces. now rewrite (H x) by now left.
Qed.

Lemma unlinked_perm (st : store) (l l' : list TaintTrace) :
  Permutation l l' -> unlinked st l -> unlinked st l'.
Proof.
  intros Hp [Hnd Hf]. split.
  - pose proof (Permutation_map oid Hp) as Hp'. now rewrite <- Hp'.
  - eapply Permutation_Forall; eassumption.
Qed.

Lemma unlinked_sorted (st : store) (S I K : list TaintTrace) :
  unlinked st (S ++ I ++ K) -> unlinked st (sorted S ++ sorted I ++ sorted K).
Proof.
  apply unlinked_perm. symmetry.
  repeat apply Permutation_app; apply sorted_perm.
Qed.

Lemma path_nodup (q : list TaintTrace) (z : TaintTrace) (kk : list TaintTrace) :
  NoDup (map oid (q ++ z :: kk)) -> NoDup (map oid (q ++ [z])).
Proof.
  rewrite !map_app, !NoDup_app. cbn [map]. rewrite NoDup_cons.
  intros (H1 & H2 & H3 & H4). split; [exact H1 |].
  split; [| apply NoDup_singleton].
  intros x Hx Hin. apply (H2 x Hx).
  apply list_elem_of_singleton in Hin as ->. now left.
Qed.

(** The store after linking the path [q ++ [z]] of a graph whose traces
    [q ++ z :: kk] were unlinked: one successor for each trace of [q], none
    for [z] and the traces of [kk]. *)
Lemma linked_path (st : store) (q : list TaintTrace) (z : TaintTrace)
  (kk : list TaintTrace) :
  unlinked st (q ++ z :: kk) ->
  (forall a, In a q -> exists b, link st (q ++ [z]) !! oid a = Some [b])
  /\ (forall k, In k (z :: kk) -> link st (q ++ [z]) !! oid k = Some []).
Proof.
  intros [Hnd Hf]. split.
  - intros a Ha. apply link_inner; [now apply path_nodup with kk | | exact Ha].
    apply Forall_forall. intros x Hx.
    rewrite Forall_forall in Hf. apply (lookup_lt_Some _ _ []), Hf.
    apply list_elem_of_In. apply list_elem_of_In in Hx.
    apply in_app_or in Hx as [Hx | [<- | []]]; apply in_or_app; [now left |].
    right. now left.
  - intros k Hk. rewrite link_outside.
    + rewrite Forall_forall in Hf. apply Hf, list_elem_of_In, in_or_app. now right.
    + rewrite map_app, NoDup_app in Hnd. destruct Hnd as (_ & Hdisj & _).
      intros Hin. apply (Hdisj (oid k)); apply list_elem_of_In;
        [exact Hin | now apply in_map].
Qed.

(** A graph built from unlinked traces, with at least one source and one
    sink: the construction succeeds, and every source and every intermediate
    has one outgoing edge, the sinks none. *)
Lemma init_unlinked hash (st : store) (S I K : list TaintTrace) :
  unlinked st (S ++ I ++ K) -> S <> [] -> K <> [] ->
  exists st' g,
    TaintTraceGraph__init__ st S I K = inr (st', g)
    /\ g = mkTaintTraceGraph (sorted S) (sorted I) (sorted K)
    /\ length (emitted hash st' g) = (length S + length I)%nat
    /\ (forall k, In k (sinks g) -> st' !! oid k = Some []).
Proof.
  intros Hun HS HK. apply unlinked_sorted in Hun. rewrite init_spec.
  destruct (sorted S) as [|s0 ss] eqn:ES; [now apply sorted_nil_inv in ES |].
  destruct (sorted K) as [|k0 kk] eqn:EK; [now apply sorted_nil_inv in EK |].
  rewrite <- ES in *. clear ES s0 ss.
  eexists _, _. split; [reflexivity |]. split; [reflexivity |].
  rewrite app_assoc in Hun |- *.
  destruct (linked_path _ _ _ _ Hun) as [Hq Hk].
  split; [| exact Hk].
  unfold emitted. cbn [sources intermediates sinks].
  rewrite (edges_none _ _ (k0 :: kk)) by exact Hk.
  rewrite !length_app, !edges_one_each.
  - rewrite !sorted_length. simpl. lia.
  - intros x Hx. apply Hq, in_or_app. now right.
  - intros x Hx. apply Hq, in_or_app. now left.
Qed.

(** The sample traces are what [TaintTrace(...)] creates, one after the
    other, from an empty store. *)
Example sample_traces_created :
  let '(st, b) := TaintTrace__init__ [] (span_at 10 11) "B" in
  let '(st, a) := TaintTrace__init__ st (span_at 5 6) "A" in
  let '(st, c) := TaintTrace__init__ st (span_at 20 21) "C" in
  let '(st, d) := TaintTrace__init__ st (span_at 30 31) "D" in
  (st, [b; a; c; d]) = (fresh 4, [node_B; node_A; node_C; node_D]).
Proof. reflexivity. Qed.

(** The constructor on any lists of traces just created, with at least one
    source and one sink: one edge out of every source and every intermediate
    and none out of a sink, [len(sources) + len(intermediates)] edges, which
    is [len(sources) + len(intermediates) + len(sinks) - 1] when the graph
    has exactly one sink. *)
Lemma constructed_graph_edge_count hash (st : store)
  (S I K : list TaintTrace) :
  unlinked st (S ++ I ++ K) -> S <> [] -> K <> [] ->
  exists st' g,
    TaintTraceGraph__init__ st S I K = inr (st', g)
    /\ len (sources g) = len S
    /\ len (intermediates g) = len I
    /\ len (sinks g) = len K
    /\ len (emitted hash st' g) = len (sources g) + len (intermediates g)
    /\ (len (sinks g) = 1 ->
        len (emitted hash st' g)
        = len (sources g) + len (intermediates g) + len (sinks g) - 1).
Proof.
  intros Hun HS HK.
  destruct (init_unlinked hash st S I K Hun HS HK) as (st' & g & E & -> & Hn & _).
  exists st', (mkTaintTraceGraph (sorted S) (sorted I) (sorted K)).
  split; [exact E |]. unfold len in *. cbn [sources intermediates sinks] in *.
  rewrite Hn, !sorted_length. repeat split; lia.
Qed.

(** The edge count on scenario A: two edges for two sources and one sink. *)
Lemma constructed_graph_edge_count_witness :
  exists st' g,
    TaintTraceGraph__init__ (fresh 3) [node_B; node_A] [] [node_C] = inr (st', g)
    /\ len (sources g) = 2
    /\ len (intermediates g) = 0
    /\ len (sinks g) = 1
    /\ len (emitted (fun _ => 0) st' g) = len (sources g) + len (intermediates g)
    /\ (len (sinks g) = 1 ->
        len (emitted (fun _ => 0) st' g)
        = len (sources g) + len (intermediates g) + len (sinks g) - 1).
Proof.
  apply (constructed_graph_edge_count (fun _ => 0) (fresh 3)
           [node_B; node_A] [] [node_C]).
  - split.
    + apply (bool_decide_unpack _). vm_compute. exact I.
    + repeat constructor.
  - discriminate.
  - discriminate.
Defined.

(** The constructor called with two sinks, as the script never calls it (its
    sinks are the range of the finding or nothing): one edge. *)
Example two_sinks_one_edge :
  exists st' g,
    TaintTraceGraph__init__ (fresh 4) [node_A] [] [node_C; node_D] = inr (st', g)
    /\ sources g <> []
    /\ forall hash,
        len (emitted hash st' g)
        <> len (sources g) + len (intermediates g) + len (sinks g) - 1.
Proof.
  eexists _, _. split; [reflexivity |]. split; [discriminate |].
  intros hash. vm_compute. discriminate.
Qed.

(** C9.  Scenario A: from the sources B (offset 10) and A (offset 5), no
    intermediate and the sink C (offset 20), the graph has the sources
    [A; B], A has the only successor B, B the only successor C, C none, and
    the edges are A --> B and B --> C. *)
Theorem scenario_A hash :
  exists st' g,
    TaintTraceGraph__init__ (fresh 3) [node_B; node_A] [] [node_C] = inr (st', g)
    /\ sources g = [node_A; node_B]
    /\ intermediates g = []
    /\ sinks g = [node_C]
    /\ next_traces st' node_A = [node_B]
    /\ next_traces st' node_B = [node_C]
    /\ next_traces st' node_C = []
    /\ emitted hash st' g
       = [(__hash__ hash node_A, __hash__ hash node_B);
          (__hash__ hash node_B, __hash__ hash node_C)].
Proof. eexists _, _. repeat split. Qed.

(** ** The span converter *)

Lemma make_traces_cons (st : store) (r : span) (ranges : list span)
  (c : string) :
  make_traces st (r :: ranges) c
  = (fst (make_traces (st ++ [[]]) ranges c),
     mkTaintTrace (length st) (span_start r) (span_end r)
       (pos_offset (span_start r))
       (Text.slice c (pos_offset (span_start r)) (pos_offset (span_end r)))
     :: snd (make_traces (st ++ [[]]) ranges c)).
Proof.
  cbn [make_traces TaintTrace__init__].
  now destruct (make_traces (st ++ [[]]) ranges c).
Qed.

Lemma make_traces_store (ranges : list span) (c : string) (st : store) :
  fst (make_traces st ranges c) = st ++ replicate (length ranges) [].
Proof.
  revert st. induction ranges as [|r ranges IH]; intros st.
  - simpl. now rewrite app_nil_r.
  - rewrite make_traces_cons. cbn [fst length replicate].
    rewrite IH, <- app_assoc. reflexivity.
Qed.

Lemma make_traces_oids (ranges : list span) (c : string) (st : store) :
  map oid (snd (make_traces st ranges c)) = seq (length st) (length ranges).
Proof.
  revert st. induction ranges as [|r ranges IH]; intros st; [reflexivity |].
  rewrite make_traces_cons. cbn [snd map oid length seq].
  rewrite IH, length_app. simpl. now rewrite Nat.add_1_r.
Qed.

Lemma make_traces_ranges (ranges : list span) (c : string) (st : store) :
  map trace_range
    (List.filter (fun x => negb (String.eqb (context x) "."))
       (snd (make_traces st ranges c)))
  = kept c ranges.
Proof.
  revert st. induction ranges as [|r ranges IH]; intros st; [reflexivity |].
  rewrite make_traces_cons. cbn [snd List.filter kept].
  unfold context at 1. cbn [_context].
  destruct (negb _); cbn [map]; fold (kept c ranges); rewrite IH;
    [destruct r |]; reflexivity.
Qed.

Lemma associate_info_eq (st : store) (ranges : list span) (c : string) :
  associate_info st ranges c
  = (st ++ replicate (length ranges) [],
     List.filter (fun x => negb (String.eqb (context x) "."))
       (snd (make_traces st ranges c))).
Proof.
  unfold associate_info. rewrite <- (make_traces_store ranges c st).
  now destruct (make_traces st ranges c).
Qed.

Lemma NoDup_filter_map {A B} (f : A -> B) (p : A -> bool) (l : list A) :
  NoDup (map f l) -> NoDup (map f (List.filter p l)).
Proof.
  induction l as [|x l IH]; [auto |].
  cbn [map List.filter]. rewrite NoDup_cons. intros [Hx Hl].
  destruct (p x); [| auto].
  cbn [map]. apply NoDup_cons. split; [| auto].
  intros Hin. apply Hx. apply list_elem_of_In in Hin.
  apply list_elem_of_In. apply in_map_iff in Hin as (y & <- & [Hy _]%filter_In).
  now apply in_map.
Qed.

(** [associate_info] creates one trace per range and returns some of them. *)
Lemma associate_info_created (st : store) (ranges : list span) (c : string) :
  created st (fst (associate_info st ranges c))
    (snd (associate_info st ranges c)).
Proof.
  rewrite associate_info_eq. cbn [fst snd]. split; [eauto |]. split.
  - apply NoDup_filter_map. rewrite make_traces_oids. apply NoDup_seq.
  - apply Forall_forall. intros x [Hx _]%list_elem_of_In%filter_In.
    apply (in_map oid) in Hx. rewrite make_traces_oids in Hx.
    apply in_seq in Hx. rewrite length_app, length_replicate. lia.
Qed.

Lemma associate_info_ranges (st : store) (ranges : list span) (c : string) :
  map trace_range (snd (associate_info st ranges c)) = kept c ranges.
Proof. rewrite associate_info_eq. apply make_traces_ranges. Qed.

Lemma created_range (st st' : store) (l : list TaintTrace) :
  created st st' l ->
  forall x, x ∈ map oid l -> (length st <= x < length st')%nat.
Proof.
  intros (_ & _ & Hf) x Hx. apply list_elem_of_In, in_map_iff in Hx as (y & <- & Hy).
  rewrite Forall_forall in Hf. now apply Hf, list_elem_of_In.
Qed.

Lemma created_length (st st' : store) (l : list TaintTrace) :
  created st st' l -> (length st <= length st')%nat.
Proof. intros ([n ->] & _). rewrite length_app. lia. Qed.

Lemma lookup_created (st : store) (n x : nat) :
  (length st <= x < length (st ++ replicate n []))%nat ->
  (st ++ replicate n ([] : list TaintTrace)) !! x = Some [].
Proof.
  rewrite length_app, length_replicate. intros H.
  rewrite lookup_app_r by lia. apply lookup_replicate_2. lia.
Qed.

(** Three lists created one after the other are unlinked traces of the last
    store. *)
Lemma created_unlinked (st0 st1 st2 st3 : store) (S I K : list TaintTrace) :
  created st0 st1 S -> created st1 st2 I -> created st2 st3 K ->
  unlinked st3 (S ++ I ++ K)
  /\ Forall (fun x => (length st0 <= oid x)%nat) (S ++ I ++ K)
  /\ exists n, st3 = st0 ++ replicate n [].
Proof.
  intros HS HI HK.
  pose proof (created_length _ _ _ HS) as L1.
  pose proof (created_length _ _ _ HI) as L2.
  pose proof (created_length _ _ _ HK) as L3.
  pose proof (created_range _ _ _ HS) as RS.
  pose proof (created_range _ _ _ HI) as RI.
  pose proof (created_range _ _ _ HK) as RK.
  assert (Hall : forall x, x ∈ map oid (S ++ I ++ K) ->
                           (length st0 <= x < length st3)%nat).
  { intros x. rewrite !map_app, !elem_of_app.
    intros [H | [H | H]]; [apply RS in H | apply RI in H | apply RK in H]; lia. }
  assert (Hst : exists n, st3 = st0 ++ replicate n []).
  { destruct HS as ([n1 E1] & _), HI as ([n2 E2] & _), HK as ([n3 E3] & _).
    exists (n1 + n2 + n3)%nat. subst st3 st2 st1.
    now rewrite !replicate_add, <- !app_assoc. }
  split; [split |]; [| | split; [| exact Hst]].
  - rewrite !map_app, !NoDup_app.
    destruct HS as (_ & NS & _), HI as (_ & NI & _), HK as (_ & NK & _).
    split; [exact NS |]. split.
    + intros x Hx. rewrite elem_of_app.
      intros [H | H]; apply RS in Hx; [apply RI in H | apply RK in H]; lia.
    + split; [exact NI |]. split; [| exact NK].
      intros x Hx H. apply RI in Hx. apply RK in H. lia.
  - destruct Hst as [n ->]. apply Forall_forall. intros x Hx.
    apply lookup_created, Hall, list_elem_of_In, in_map.
    now apply list_elem_of_In.
  - apply Forall_forall. intros x Hx.
    apply Hall, list_elem_of_In, in_map. now apply list_elem_of_In.
Qed.

Lemma associate_info_length (st : store) (ranges : list span) (c : string) :
  (length (snd (associate_info st ranges c)) <= length ranges)%nat.
Proof.
  rewrite associate_info_eq. cbn [snd].
  etransitivity; [apply List.filter_length_le |].
  rewrite <- (length_map oid), make_traces_oids, length_seq. reflexivity.
Qed.

Lemma format_source_eq (st : store) (r : finding) (c : string)
  (t : dataflow_trace) :
  extra_dataflow_trace r = Some t ->
  format_source st r c
  = let a1 := associate_info st (taint_source t) c in
    let a2 := associate_info (fst a1) (intermediate_vars t) c in
    let a3 := associate_info (fst a2) [finding_range r] c in
    inr (fst a3, (snd a1, snd a2, snd a3)).
Proof.
  intros H. unfold format_source. rewrite H. cbv zeta.
  destruct (associate_info st (taint_source t) c) as [st1 S]. cbn [fst snd].
  destruct (associate_info st1 (intermediate_vars t) c) as [st2 I]. cbn [fst snd].
  now destruct (associate_info st2 [finding_range r] c) as [st3 K].
Qed.

(** What [format_source] returns: traces just created, at most one of them
    a sink, the sources being those of the ranges that are kept. *)
Lemma format_source_spec (st : store) (r : finding) (c : string)
  (st' : store) (S I K : list TaintTrace) :
  format_source st r c = inr (st', (S, I, K)) ->
  unlinked st' (S ++ I ++ K)
  /\ Forall (fun x => (length st <= oid x)%nat) (S ++ I ++ K)
  /\ (exists n, st' = st ++ replicate n [])
  /\ (length K <= 1)%nat
  /\ exists t, extra_dataflow_trace r = Some t
               /\ map trace_range S = kept c (taint_source t).
Proof.
  destruct (extra_dataflow_trace r) as [t|] eqn:Et;
    [| unfold format_source; rewrite Et; discriminate].
  rewrite (format_source_eq _ _ _ _ Et). cbv zeta. intros [= <- <- <- <-].
  pose proof (associate_info_created st (taint_source t) c) as H1.
  pose proof (associate_info_created
                (fst (associate_info st (taint_source t) c))
                (intermediate_vars t) c) as H2.
  pose proof (associate_info_created
                (fst (associate_info
                        (fst (associate_info st (taint_source t) c))
                        (intermediate_vars t) c))
                [finding_range r] c) as H3.
  destruct (created_unlinked _ _ _ _ _ _ _ H1 H2 H3) as (U & F & E).
  repeat split; try assumption.
  - exact (proj1 U).
  - exact (proj2 U).
  - apply (associate_info_length _ [finding_range r]).
  - exists t. split; [reflexivity | apply associate_info_ranges].
Qed.

(** ** Construction from a finding *)

Lemma link_at_most_one (l : list TaintTrace) (st : store) :
  at_most_one st -> at_most_one (link st l).
Proof.
  revert st. induction l as [|a l IH]; intros st H; [exact H |].
  destruct l as [|b l]; [exact H |].
  apply (IH (set_next_traces st a [b])).
  apply Forall_insert; [exact H | simpl; lia].
Qed.

Lemma init_inv (st : store) (S I K : list TaintTrace) (st' : store)
  (g : TaintTraceGraph) :
  TaintTraceGraph__init__ st S I K = inr (st', g) ->
  S <> [] /\ K <> []
  /\ g = mkTaintTraceGraph (sorted S) (sorted I) (sorted K)
  /\ length st' = length st
  /\ (forall x, ~ In x (map oid (S ++ I)) -> st' !! x = st !! x)
  /\ (at_most_one st -> at_most_one st').
Proof.
  rewrite init_spec.
  destruct (sorted S) as [|s0 ss] eqn:ES; [discriminate |].
  destruct (sorted K) as [|k0 kk] eqn:EK; [discriminate |].
  rewrite <- ES. intros [= <- <-].
  split; [intros ->; discriminate |]. split; [intros ->; discriminate |].
  split; [reflexivity |]. split; [apply link_length |].
  rewrite app_assoc. split.
  - intros x Hx. apply link_outside. intros Hin. apply Hx.
    apply in_map_iff in Hin as (y & <- & Hy). apply in_map.
    apply in_app_or in Hy as [Hy | Hy]; apply in_or_app; [left | right];
      apply list_elem_of_In; [rewrite <- (sorted_perm S) | rewrite <- (sorted_perm I)];
      now apply list_elem_of_In.
  - apply link_at_most_one.
Qed.

(** A graph of the script, constructed from what [format_source] returns:
    the traces created before are as they were, the graph has one sink,
    without a successor, and one edge less than it has traces. *)
Lemma construct_spec (st : store) (r : finding) (c : string)
  (st1 : store) (S I K : list TaintTrace) (st2 : store) (g : TaintTraceGraph) :
  format_source st r c = inr (st1, (S, I, K)) ->
  TaintTraceGraph__init__ st1 S I K = inr (st2, g) ->
  (forall x, (x < length st)%nat -> st2 !! x = st !! x)
  /\ (length st <= length st2)%nat
  /\ terminal st2 g
  /\ length (sinks g) = 1%nat
  /\ (at_most_one st -> at_most_one st2)
  /\ forall hash,
      len (emitted hash st2 g)
      = len (sources g) + len (intermediates g) + len (sinks g) - 1.
Proof.
  intros Hf Hi.
  destruct (format_source_spec _ _ _ _ _ _ _ Hf) as (U & F & [n ->] & HK & _).
  destruct (init_inv _ _ _ _ _ _ Hi) as (HS & HK' & Eg & Hlen & Hout & Hone).
  assert (HlenK : length K = 1%nat) by (destruct K as [|? [|]]; simpl in *; [easy | lia | lia]).
  split; [| split; [| split; [| split; [| split]]]].
  - intros x Hx. rewrite Hout.
    + now apply lookup_app_l.
    + intros Hin. apply in_map_iff in Hin as (y & <- & Hy).
      rewrite Forall_forall in F.
      assert (length st <= oid y)%nat; [| lia].
      apply F, list_elem_of_In. rewrite app_assoc. apply in_or_app. now left.
  - rewrite Hlen, length_app. lia.
  - destruct (init_unlinked (fun _ => 0) _ _ _ _ U HS HK')
      as (st' & g' & E & _ & _ & Ht).
    rewrite Hi in E. injection E as <- <-. exact Ht.
  - rewrite Eg. cbn [sinks]. now rewrite sorted_length.
  - intros H. apply Hone. apply Forall_app. split; [exact H |].
    apply Forall_replicate. simpl. lia.
  - intros hash.
    destruct (init_unlinked hash _ _ _ _ U HS HK') as (st' & g' & E & _ & Hn & _).
    rewrite Hi in E. injection E as <- <-.
    unfold len. rewrite Hn, Eg. cbn [sources intermediates sinks].
    rewrite !sorted_length, HlenK. lia.
Qed.

(** ** The loops of the script *)

Lemma for_each_inv {I S} (P : S -> Prop) (body : I -> S -> result S) :
  (forall i s s', P s -> body i s = inr s' -> P s') ->
  forall l s s', P s -> for_each l body s = inr s' -> P s'.
Proof.
  intros Hbody l. induction l as [|i l IH]; intros s s' Hs; simpl.
  - now intros [= <-].
  - destruct (body i s) as [e | s1] eqn:E; [discriminate |].
    simpl. apply IH. now apply (Hbody i s).
Qed.

Lemma all_graphs_new P results k : all_graphs P results -> all_graphs P (dict_new results k).
Proof.
  intros H. apply Forall_app. split; [exact H |]. repeat constructor.
Qed.

Lemma all_graphs_append P results k g :
  all_graphs P results -> P g -> all_graphs P (dict_append results k g).
Proof.
  intros H Hg. induction H as [|[k' gs] results Hgs H IH]; simpl; [constructor |].
  destruct (String.eqb k' k).
  - constructor; [| exact H]. simpl. apply Forall_app. split; [exact Hgs |].
    now repeat constructor.
  - now constructor.
Qed.

Lemma all_graphs_impl (P Q : TaintTraceGraph -> Prop) results :
  (forall g, P g -> Q g) -> all_graphs P results -> all_graphs Q results.
Proof.
  intros H. apply List.Forall_impl. intros kv. apply List.Forall_impl, H.
Qed.

Lemma terminal_later (st st' : store) (g : TaintTraceGraph) :
  (forall x, (x < length st)%nat -> st' !! x = st !! x) ->
  terminal st g -> terminal st' g.
Proof.
  intros Hsame Hg k Hk. specialize (Hg k Hk).
  rewrite Hsame; [exact Hg |]. now apply lookup_lt_Some in Hg.
Qed.

Lemma terminal_update (st : store) (g h : TaintTraceGraph) :
  terminal st g -> terminal st h -> terminal st (update g h).
Proof.
  intros Hg Hh k Hk. cbn [update sinks] in Hk.
  apply in_app_or in Hk as [Hk | Hk]; auto.
Qed.

(** One turn of the first loop keeps the two facts: no trace has two
    successors, and the sinks of every graph have none. *)
Lemma load_one_inv (c : string) (r : finding)
  (s s' : store * list (string * list TaintTraceGraph)) :
  at_most_one (fst s) /\ all_graphs (terminal (fst s)) (snd s) ->
  load_one c r s = inr s' ->
  at_most_one (fst s') /\ all_graphs (terminal (fst s')) (snd s').
Proof.
  destruct s as [st results]. cbn [fst snd]. intros [H1 Hall].
  unfold load_one. destruct (extra_dataflow_trace r) as [t|].
  2:{ intros [= <-]. now split. }
  destruct (format_source st r c) as [e | [st1 [[S I] K]]] eqn:Hf; [discriminate |].
  cbn [bind].
  destruct (TaintTraceGraph__init__ st1 S I K) as [e | [st2 g]] eqn:Hi;
    [discriminate |].
  cbn [bind ret]. intros [= <-]. cbn [fst snd].
  destruct (construct_spec _ _ _ _ _ _ _ _ _ Hf Hi)
    as (Hsame & _ & Hg & _ & Hone & _).
  split; [auto |].
  apply all_graphs_append; [| exact Hg].
  apply (all_graphs_impl (terminal st)).
  - intros g0. now apply terminal_later.
  - destruct (dict_mem results (check_id r)); [exact Hall |].
    now apply all_graphs_new.
Qed.

Lemma load_inv (data : list finding) (c : string) (st : store)
  (results : list (string * list TaintTraceGraph)) :
  load data c = inr (st, results) ->
  at_most_one st /\ all_graphs (terminal st) results.
Proof.
  intros H.
  apply (for_each_inv
           (fun s => at_most_one (fst s) /\ all_graphs (terminal (fst s)) (snd s))
           (load_one c) (load_one_inv c) data ([], []) (st, results));
    [| exact H].
  split; constructor.
Qed.

Lemma fold_left_inv {A B} (P : A -> Prop) (f : A -> B -> A) (l : list B) (a : A) :
  (forall a b, P a -> P (f a b)) -> P a -> P (fold_left f l a).
Proof.
  intros Hf. revert a. induction l as [|b l IH]; intros a Ha; simpl; auto.
Qed.

Section Clustering.

(** A property of graphs that [update] keeps. *)
Variable P : TaintTraceGraph -> Prop.
Hypothesis P_update : forall g h, P g -> P h -> P (update g h).

Lemma cluster_inner_keeps (g h : nat) (s : list TaintTraceGraph * list nat) :
  Forall P (fst s) -> Forall P (fst (cluster_inner g h s)).
Proof.
  destruct s as [gs seen]. cbn [fst]. intros H. unfold cluster_inner.
  destruct (mem h seen); [exact H |].
  destruct (Nat.eqb g h); [exact H |].
  destruct (gs !! g) as [vg|] eqn:Eg; [| exact H].
  destruct (gs !! h) as [vh|] eqn:Eh; [| exact H].
  destruct (intersects vg vh); [| exact H].
  cbn [fst]. apply Forall_insert; [exact H |].
  rewrite Forall_lookup in H. apply P_update; eapply H; eassumption.
Qed.

Lemma cluster_outer_keeps (ids : list nat) (g : nat)
  (s : list TaintTraceGraph * list nat * list nat) :
  Forall P (fst (fst s)) -> Forall P (fst (fst (cluster_outer ids g s))).
Proof.
  destruct s as [[gs seen] final]. cbn [fst]. intros H. unfold cluster_outer.
  destruct (mem g seen); [exact H |].
  pose proof (fold_left_inv (fun s => Forall P (fst s))
                (fun s h => cluster_inner g h s) ids (gs, seen)
                (fun a b => cluster_inner_keeps g b a) H) as H'.
  now destruct (fold_left _ ids (gs, seen)).
Qed.

(** The graphs of [final] satisfy what the graphs of the list satisfied. *)
Lemma cluster_keeps (graphs : list TaintTraceGraph) :
  Forall P graphs -> Forall P (cluster graphs).
Proof.
  intros H. unfold cluster.
  pose proof (fold_left_inv (fun s => Forall P (fst (fst s)))
                (fun s g => cluster_outer (seq 0 (length graphs)) g s)
                (seq 0 (length graphs)) (graphs, [], [])
                (fun a b => cluster_outer_keeps _ b a) H) as H'.
  destruct (fold_left _ _ (graphs, [], [])) as [[gs seen] final].
  cbn [fst] in H'. clear -H'.
  induction final as [|i final IH]; [constructor |].
  cbn [omap list_omap]. destruct (gs !! i) as [g|] eqn:E; [| exact IH].
  constructor; [| exact IH]. rewrite Forall_lookup in H'. eapply H', E.
Qed.

End Clustering.

(** After a run no trace has two successors and the sinks of every graph
    of every [final] have none. *)
Lemma main_inv (data : list finding) (c : string) (st : store)
  (out : list (string * list TaintTraceGraph)) :
  main data c = inr (st, out) ->
  at_most_one st /\ all_graphs (terminal st) out.
Proof.
  unfold main. destruct (load data c) as [e | [st' results]] eqn:E;
    [discriminate |].
  cbn [bind ret]. intros [= <- <-].
  destruct (load_inv _ _ _ _ E) as [H1 Hall]. split; [exact H1 |].
  unfold all_graphs in *. rewrite Forall_map.
  eapply List.Forall_impl; [| exact Hall].
  intros kv Hkv. cbn [snd]. apply cluster_keeps; [| exact Hkv].
  intros g h. apply terminal_update.
Qed.

Lemma at_most_one_next (st : store) (x : TaintTrace) :
  at_most_one st -> (length (next_traces st x) <= 1)%nat.
Proof.
  intros H. unfold next_traces. destruct (st !! oid x) as [s|] eqn:E; simpl.
  - unfold at_most_one in H. rewrite Forall_lookup in H. eapply H, E.
  - lia.
Qed.

Lemma reachable_terminal (s : store * list TaintTraceGraph) :
  reachable s -> Forall (terminal (fst s)) (snd s).
Proof.
  induction 1 as [| s s' _ IH Hstep]; [constructor |].
  destruct Hstep as [st gs r c st1 b i e st2 g Hf Hi | st gs i j g h Hg Hh];
    cbn [fst snd] in *.
  - destruct (construct_spec _ _ _ _ _ _ _ _ _ Hf Hi) as (Hsame & _ & Ht & _).
    apply Forall_app. split; [| now repeat constructor].
    eapply List.Forall_impl; [| exact IH].
    intros g0. now apply terminal_later.
  - apply Forall_insert; [exact IH |].
    rewrite Forall_lookup in IH. apply terminal_update; eapply IH; eassumption.
Qed.

(** C10.  In every state that constructions of graphs from findings and
    merges of graphs lead to, every trace of the sinks of every graph is an
    object of the store with an empty set of successors. *)
Theorem sinks_stay_terminal (st : store) (gs : list TaintTraceGraph) :
  reachable (st, gs) ->
  forall g k, In g gs -> In k (sinks g) ->
  st !! oid k = Some [] /\ next_traces st k = [].
Proof.
  intros R g k Hg Hk. apply reachable_terminal in R. cbn [fst snd] in R.
  rewrite Forall_forall in R. unfold next_traces.
  now rewrite (R g (proj2 (list_elem_of_In _ _) Hg) k Hk).
Qed.

(** The sinks [c] and [e] after the two sample graphs were constructed and
    the first took in the second. *)
Lemma sinks_stay_terminal_witness :
  (sample_store !! oid trace_c = Some [] /\ next_traces sample_store trace_c = [])
  /\ (sample_store !! oid trace_e = Some []
      /\ next_traces sample_store trace_e = []).
Proof.
  assert (R : reachable (sample_store, [update graph_c graph_e; graph_e])).
  { apply (reachable_step (sample_store, [graph_c; graph_e]));
      [| exact (step_update sample_store [graph_c; graph_e] 0 1
                  graph_c graph_e eq_refl eq_refl)].
    apply (reachable_step ([[trace_c]; []], [graph_c]));
      [| exact (step_construct [[trace_c]; []] [graph_c] finding_e
                  sample_contents [[trace_c]; []; []; []]
                  [trace_a2] [] [trace_e] sample_store graph_e
                  eq_refl eq_refl)].
    apply (reachable_step ([], []));
      [apply reachable_start
      | exact (step_construct [] [] finding_c sample_contents [[]; []]
                 [trace_a1] [] [trace_c] [[trace_c]; []] graph_c
                 eq_refl eq_refl)]. }
  split.
  - apply (sinks_stay_terminal _ _ R (update graph_c graph_e) trace_c);
      simpl; auto.
  - apply (sinks_stay_terminal _ _ R (update graph_c graph_e) trace_e);
      simpl; auto.
Defined.

(** The run of the script on the two sample findings: one merged graph. *)
Example sample_run :
  main [finding_c; finding_e] sample_contents
  = inr (sample_store, [("rule", [update graph_c graph_e])]).
Proof. reflexivity. Qed.

(** C5, as amended.  After any run every trace has at most one successor in
    its own set: a merge concatenates lists and unites no sets.  It is the
    edges of a merged graph that can lead from one hash key to several: on the
    sample run the two equal traces [a] give an edge to [c] and an edge to
    [e]. *)
Theorem merge_unions_no_successors :
  (forall data contents st out,
     main data contents = inr (st, out) ->
     forall x, (length (next_traces st x) <= 1)%nat)
  /\ main [finding_c; finding_e] sample_contents
     = inr (sample_store, [("rule", [update graph_c graph_e])])
  /\ (forall hash,
        emitted hash sample_store (update graph_c graph_e)
        = [(hash (0, "a"), hash (2, "c")); (hash (0, "a"), hash (4, "e"))]).
Proof.
  split; [| split; reflexivity].
  intros data contents st out H x.
  apply at_most_one_next. now apply (main_inv _ _ _ _ H).
Qed.

(** C5 as stated fails: no input leaves a trace with more than one
    successor. *)
Lemma no_trace_with_two_successors :
  ~ exists data contents st out x,
      main data contents = inr (st, out)
      /\ (1 < length (next_traces st x))%nat.
Proof.
  intros (data & contents & st & out & x & H & Hlen).
  pose proof (at_most_one_next st x (proj1 (main_inv _ _ _ _ H))). lia.
Qed.

(** ** Empty sources *)

Lemma load_one_no_source (c : string) (r : finding) (t : dataflow_trace)
  (s : store * list (string * list TaintTraceGraph)) :
  extra_dataflow_trace r = Some t ->
  kept c (taint_source t) = [] ->
  load_one c r s = inl IndexError.
Proof.
  intros Et Hk. destruct s as [st results]. unfold load_one. rewrite Et.
  rewrite (format_source_eq _ _ _ _ Et). cbv zeta. cbn [bind].
  pose proof (associate_info_ranges st (taint_source t) c) as Hr.
  rewrite Hk in Hr. apply map_eq_nil in Hr. rewrite Hr.
  now rewrite init_spec.
Qed.

(** C3, as amended.  Constructing a graph with zero sources raises the
    [IndexError] of [sources[-1]], which names no finding; the script does
    not catch it: a run stops at the first finding whose sources are none,
    whatever findings follow. *)
Theorem empty_sources_raise_index_error :
  (forall st I K, TaintTraceGraph__init__ st [] I K = inl IndexError)
  /\ (forall contents pre r t post s,
        for_each pre (load_one contents) ([], []) = inr s ->
        extra_dataflow_trace r = Some t ->
        kept contents (taint_source t) = [] ->
        main (pre ++ r :: post) contents = inl IndexError).
Proof.
  split.
  - intros st I K. now rewrite init_spec.
  - intros contents pre r t post s Hpre Et Hk.
    unfold main, load. rewrite for_each_app, Hpre. cbn [bind for_each].
    now rewrite (load_one_no_source _ _ t s Et Hk).
Qed.

(** C3 as stated fails: a finding without a source, followed by a finding
    that is in order, ends the run with [IndexError] and no result for
    either. *)
Lemma no_source_aborts_run :
  main [finding_no_source; finding_c] sample_contents = inl IndexError
  /\ exists st out, main [finding_c] sample_contents = inr (st, out).
Proof. split; [reflexivity | eexists _, _; reflexivity]. Qed.

(** The graph of every finding of a run has one edge less than traces. *)
Lemma script_graph_edge_count hash (st : store) (r : finding) (c : string)
  (st1 : store) (S I K : list TaintTrace) (st2 : store) (g : TaintTraceGraph) :
  format_source st r c = inr (st1, (S, I, K)) ->
  TaintTraceGraph__init__ st1 S I K = inr (st2, g) ->
  len (emitted hash st2 g)
  = len (sources g) + len (intermediates g) + len (sinks g) - 1.
Proof.
  intros Hf Hi. now apply (construct_spec _ _ _ _ _ _ _ _ _ Hf Hi).
Qed.

(** * Further properties *)

(** ** Overlap of text ranges *)

Lemma text_ranges_overlap_spec (r1 r2 : span) :
  text_ranges_overlap r1 r2 = true
  <-> line (span_start r1) <= line (span_end r2)
      /\ line (span_start r2) <= line (span_end r1)
      /\ col (span_start r1) < col (span_end r2)
      /\ col (span_start r2) < col (span_end r1).
Proof.
  unfold text_ranges_overlap.
  rewrite !andb_true_iff, Z.leb_le, Z.geb_le, Z.ltb_lt, Z.gtb_lt. tauto.
Qed.

(** X1.  [text_ranges_overlap] does not depend on the order of its two
    arguments. *)
Theorem text_ranges_overlap_symmetric (r1 r2 : span) :
  text_ranges_overlap r1 r2 = text_ranges_overlap r2 r1.
Proof.
  apply eq_true_iff_eq. rewrite !text_ranges_overlap_spec. tauto.
Qed.

(** X2.  A range overlaps itself exactly when its start line is not after
    its end line and its start column is before its end column: a range over
    several lines that ends in a column not after the one it starts in does
    not overlap itself. *)
Theorem text_ranges_overlap_self (r : span) :
  text_ranges_overlap r r = true
  <-> line (span_start r) <= line (span_end r)
      /\ col (span_start r) < col (span_end r).
Proof. rewrite text_ranges_overlap_spec. tauto. Qed.

(** X3.  The test is one of bounding boxes: two ranges, each with its start
    line not after its end line and its start column before its end column,
    overlap iff some line lies in the lines of both and some column lies in
    the columns of both (the end column excluded). *)
Theorem text_ranges_overlap_boxes (r1 r2 : span) :
  line (span_start r1) <= line (span_end r1) ->
  col (span_start r1) < col (span_end r1) ->
  line (span_start r2) <= line (span_end r2) ->
  col (span_start r2) < col (span_end r2) ->
  (text_ranges_overlap r1 r2 = true
   <-> (exists l, line (span_start r1) <= l <= line (span_end r1)
                  /\ line (span_start r2) <= l <= line (span_end r2))
       /\ (exists k, col (span_start r1) <= k < col (span_end r1)
                     /\ col (span_start r2) <= k < col (span_end r2))).
Proof.
  intros L1 C1 L2 C2. rewrite text_ranges_overlap_spec. split.
  - intros (H1 & H2 & H3 & H4). split.
    + exists (Z.max (line (span_start r1)) (line (span_start r2))). lia.
    + exists (Z.max (col (span_start r1)) (col (span_start r2))). lia.
  - intros [(l & Hl1 & Hl2) (k & Hk1 & Hk2)]. lia.
Qed.

(** Two ranges over lines 1 to 3: by their columns they are apart, though as
    stretches of text the second lies within the first. *)
Lemma text_ranges_overlap_boxes_witness :
  text_ranges_overlap (Span (Position 1 0 0) (Position 3 5 0))
                      (Span (Position 2 7 0) (Position 2 9 0)) = true
  <-> (exists l, 1 <= l <= 3 /\ 2 <= l <= 2)
      /\ (exists k, 0 <= k < 5 /\ 7 <= k < 9).
Proof.
  apply (text_ranges_overlap_boxes (Span (Position 1 0 0) (Position 3 5 0))
           (Span (Position 2 7 0) (Position 2 9 0))); simpl; lia.
Defined.

(** ** The traces that [associate_info] returns *)

Lemma token_length (c : ascii) : (1 <= String.length (token c))%nat.
Proof.
  unfold token.
  repeat match goal with
         | |- context [Ascii.eqb c ?d] => destruct (Ascii.eqb c d)
         end; simpl; lia.
Qed.

Lemma length_append (a b : string) :
  String.length (String.append a b) = (String.length a + String.length b)%nat.
Proof.
  induction a as [|x a IH]; [reflexivity |].
  rewrite append_cons. simpl. now rewrite IH.
Qed.

Lemma length_zero_inv (s : string) : String.length s = 0%nat -> s = "".
Proof. now destruct s. Qed.

(** Only the text of one dot escapes to one dot. *)
Lemma escape_dot (s : string) : escape s = "." <-> s = ".".
Proof.
  split; [| now intros ->].
  rewrite escape_expand. destruct s as [|c s]; [discriminate |].
  simpl. intros H.
  assert (Hlen : (String.length (token c) + String.length (expand s) = 1)%nat)
    by now rewrite <- length_append, H.
  pose proof (token_length c) as Hc.
  assert (Hs : expand s = "") by (apply length_zero_inv; lia).
  apply expand_nil_inv in Hs. subst s. simpl in H.
  rewrite append_nil_r in H. revert H. unfold token.
  repeat match goal with
         | |- context [Ascii.eqb c ?d] => destruct (Ascii.eqb c d)
         end; try discriminate.
  now intros [= ->].
Qed.

Lemma kept_raw (c : string) (ranges : list span) :
  kept c ranges
  = List.filter (fun r => negb (String.eqb (raw_text c r) ".")) ranges.
Proof.
  unfold kept. apply filter_ext. intros r. f_equal. unfold raw_text.
  apply eq_true_iff_eq. rewrite !String.eqb_eq. apply escape_dot.
Qed.

Lemma make_traces_fields (ranges : list span) (c : string) (st : store) :
  Forall (fun x => offset x = pos_offset (start x)
                   /\ _context x = raw_text c (trace_range x))
    (snd (make_traces st ranges c)).
Proof.
  revert st. induction ranges as [|r ranges IH]; intros st; [constructor |].
  rewrite make_traces_cons. cbn [snd]. constructor; [| apply IH].
  now destruct r.
Qed.

(** X4.  [associate_info] returns, in the order of the ranges, one trace for
    each range whose text is not the single dot, and none for the others; the
    offset of a trace is the start offset of its range and its raw text the
    text of the range. *)
Theorem associate_info_traces (st : store) (ranges : list span) (c : string) :
  map trace_range (snd (associate_info st ranges c))
  = List.filter (fun r => negb (String.eqb (raw_text c r) ".")) ranges
  /\ Forall (fun x => offset x = pos_offset (start x)
                      /\ _context x = raw_text c (trace_range x)
                      /\ _context x <> ".")
       (snd (associate_info st ranges c)).
Proof.
  split; [rewrite associate_info_ranges; apply kept_raw |].
  rewrite associate_info_eq. cbn [snd].
  pose proof (make_traces_fields ranges c st) as H.
  rewrite Forall_forall in H. apply Forall_forall.
  intros x [Hx Hdot]%list_elem_of_In%filter_In.
  destruct (H x) as [Ho Hc]; [now apply list_elem_of_In |].
  split; [exact Ho |]. split; [exact Hc |].
  intros E. apply negb_true_iff, String.eqb_neq in Hdot. apply Hdot.
  unfold context. now rewrite E.
Qed.

(** X5.  [associate_info] creates one object per range, kept or not: the
    store grows by as many empty sets of successors as there are ranges and
    is otherwise as before, and the traces returned are distinct new objects
    without a successor. *)
Theorem associate_info_allocates (st : store) (ranges : list span) (c : string) :
  fst (associate_info st ranges c) = st ++ replicate (length ranges) []
  /\ NoDup (map oid (snd (associate_info st ranges c)))
  /\ Forall (fun x =>
               (length st <= oid x < length st + length ranges)%nat
               /\ st !! oid x = None
               /\ next_traces (fst (associate_info st ranges c)) x = [])
       (snd (associate_info st ranges c)).
Proof.
  destruct (associate_info_created st ranges c) as (_ & Hnd & Hf).
  split; [now rewrite associate_info_eq |]. split; [exact Hnd |].
  eapply List.Forall_impl; [| exact Hf]. intros x Hx. cbv beta in *.
  rewrite associate_info_eq in *. cbn [fst] in *.
  rewrite length_app, length_replicate in Hx.
  split; [lia |]. split; [apply lookup_ge_None; lia |].
  unfold next_traces. rewrite lookup_created; [reflexivity |].
  rewrite length_app, length_replicate. lia.
Qed.

(** ** Ranges at and beyond the bounds of the text *)

Lemma substring_zero (n : nat) (s : string) : substring n 0 s = "".
Proof.
  revert n. induction s as [|c s IH]; intros [|n]; try reflexivity. apply IH.
Qed.

Lemma substring_length (s : string) (n m : nat) :
  (n + m <= String.length s)%nat -> String.length (substring n m s) = m.
Proof.
  revert n m. induction s as [|c s IH]; intros n m H; simpl in H.
  - assert (m = 0%nat) as -> by lia. now rewrite substring_nil.
  - destruct n as [|n].
    + destruct m as [|m]; [reflexivity |]. simpl. rewrite (IH 0%nat m); lia.
    + simpl. apply IH. lia.
Qed.

Lemma slice_empty (c : string) (lo hi : Z) :
  0 <= lo -> 0 <= hi <= lo \/ Z.of_nat (String.length c) <= lo ->
  Text.slice c lo hi = "".
Proof.
  intros Hlo H. unfold Text.slice, Text.adjust. cbv zeta.
  set (n := Z.of_nat (String.length c)) in *.
  set (a := if lo <? 0 then _ else _). set (b := if hi <? 0 then _ else _).
  assert (Ha : a = Z.min lo n)
    by (subst a; now replace (lo <? 0) with false by (symmetry; apply Z.ltb_ge; lia)).
  assert (Hb : b - a <= 0) by (subst b; destruct (Z.ltb_spec hi 0); lia).
  replace (Z.to_nat (b - a)) with 0%nat by lia.
  apply substring_zero.
Qed.

(** X6.  A range that lies outside the text raises nothing: for a start
    offset that is not negative, when the end offset is not negative and not
    after the start offset, or when the start offset is at or after the end
    of the text, [associate_info] returns for the range a trace over the
    empty text (which is not the dot, so the trace is kept). *)
Theorem associate_info_outside_text (st : store) (r : span) (c : string) :
  0 <= pos_offset (span_start r) ->
  0 <= pos_offset (span_end r) <= pos_offset (span_start r)
  \/ Z.of_nat (String.length c) <= pos_offset (span_start r) ->
  associate_info st [r] c
  = (st ++ [[]],
     [mkTaintTrace (length st) (span_start r) (span_end r)
        (pos_offset (span_start r)) ""]).
Proof.
  intros H0 H. rewrite associate_info_eq, make_traces_cons. cbn [snd make_traces length replicate].
  rewrite slice_empty by assumption. reflexivity.
Qed.

Lemma associate_info_outside_text_witness :
  associate_info [] [span_at 9 12] sample_contents
  = ([[]], [mkTaintTrace 0 (Position 0 0 9) (Position 0 0 12) 9 ""]).
Proof.
  apply (associate_info_outside_text [] (span_at 9 12) sample_contents).
  - simpl. lia.
  - right. simpl. lia.
Defined.

(** X7.  A range within the text, [0 <= start <= end <= len(text)], gives a
    trace whose raw text has [end - start] characters; whatever the range,
    the raw text is no longer than the source text. *)
Theorem raw_text_length (c : string) (r : span) :
  (0 <= pos_offset (span_start r) <= pos_offset (span_end r)
   /\ pos_offset (span_end r) <= Z.of_nat (String.length c) ->
   Z.of_nat (String.length (raw_text c r))
   = pos_offset (span_end r) - pos_offset (span_start r))
  /\ (String.length (raw_text c r) <= String.length c)%nat.
Proof.
  unfold raw_text, Text.slice, Text.adjust. cbv zeta.
  set (n := Z.of_nat (String.length c)).
  set (lo := pos_offset (span_start r)). set (hi := pos_offset (span_end r)).
  assert (Hn : 0 <= n) by (subst n; lia).
  split.
  - intros [H1 H2].
    replace (lo <? 0) with false by (symmetry; apply Z.ltb_ge; lia).
    replace (hi <? 0) with false by (symmetry; apply Z.ltb_ge; lia).
    rewrite substring_length; lia.
  - set (a := if lo <? 0 then _ else _). set (b := if hi <? 0 then _ else _).
    assert (Ha : 0 <= a <= n) by (subst a; destruct (Z.ltb_spec lo 0); lia).
    assert (Hb : 0 <= b <= n) by (subst b; destruct (Z.ltb_spec hi 0); lia).
    destruct (Z.le_gt_cases b a) as [Hle | Hgt].
    + replace (Z.to_nat (b - a)) with 0%nat by lia.
      rewrite substring_zero. simpl. lia.
    + rewrite substring_length; lia.
Qed.

(** ** What [format_source] returns *)

Lemma format_source_shape (st : store) (r : finding) (c : string) :
  match extra_dataflow_trace r with
  | None => format_source st r c = inl KeyError
  | Some t =>
      exists S I K,
        format_source st r c
        = inr (st ++ replicate (length (taint_source t)
                                + length (intermediate_vars t) + 1) [],
               (S, I, K))
        /\ map trace_range S
           = List.filter (fun r => negb (String.eqb (raw_text c r) "."))
               (taint_source t)
        /\ map trace_range I
           = List.filter (fun r => negb (String.eqb (raw_text c r) "."))
               (intermediate_vars t)
        /\ map trace_range K
           = (if String.eqb (raw_text c (finding_range r)) "." then []
              else [finding_range r])
  end.
Proof.
  destruct (extra_dataflow_trace r) as [t|] eqn:Et.
  2:{ unfold format_source. now rewrite Et. }
  rewrite (format_source_eq _ _ _ _ Et). cbv zeta.
  eexists _, _, _. split.
  - f_equal. f_equal. rewrite !associate_info_eq. cbn [fst length].
    rewrite <- !app_assoc, <- !replicate_add. now rewrite Nat.add_assoc.
  - rewrite !associate_info_ranges, !kept_raw. cbn [List.filter].
    repeat split. now destruct (String.eqb _ ".").
Qed.

(** X8.  [format_source] raises [KeyError] for a finding without a dataflow
    trace and nothing else.  For a finding with one it creates an object per
    range of [taint_source], of [intermediate_vars] and for the range of the
    finding itself, and returns the traces of the ranges whose text is not
    the dot: the sinks are the finding's own range or nothing. *)
Theorem format_source_result (st : store) (r : finding) (c : string) :
  match extra_dataflow_trace r with
  | None => format_source st r c = inl KeyError
  | Some t =>
      exists S I K,
        format_source st r c
        = inr (st ++ replicate (length (taint_source t)
                                + length (intermediate_vars t) + 1) [],
               (S, I, K))
        /\ map trace_range S
           = List.filter (fun r => negb (String.eqb (raw_text c r) "."))
               (taint_source t)
        /\ map trace_range I
           = List.filter (fun r => negb (String.eqb (raw_text c r) "."))
               (intermediate_vars t)
        /\ map trace_range K
           = (if String.eqb (raw_text c (finding_range r)) "." then []
              else [finding_range r])
  end.
Proof. apply format_source_shape. Qed.

(** ** Construction of a graph: failure, lists, links, frame *)

(** X9.  The construction of a graph fails exactly when the list of sources
    or the list of sinks is empty, whatever the intermediates and the store,
    and then with [IndexError]; otherwise it returns a graph. *)
Theorem init_fails_iff_no_source_or_sink (st : store)
  (S I K : list TaintTrace) :
  (TaintTraceGraph__init__ st S I K = inl IndexError <-> S = [] \/ K = [])
  /\ (TaintTraceGraph__init__ st S I K <> inl KeyError)
  /\ ((exists st' g, TaintTraceGraph__init__ st S I K = inr (st', g))
      <-> S <> [] /\ K <> []).
Proof.
  rewrite init_spec.
  destruct (sorted S) as [|s0 ss] eqn:ES.
  { apply sorted_nil_inv in ES as ->. split; [tauto |]. split; [discriminate |].
    split; [intros (? & ? & [=]) | intros [[] _]; reflexivity]. }
  assert (HS : S <> []) by (intros ->; discriminate).
  destruct (sorted K) as [|k0 kk] eqn:EK.
  { apply sorted_nil_inv in EK as ->. split; [tauto |]. split; [discriminate |].
    split; [intros (? & ? & [=]) | intros [_ []]; reflexivity]. }
  assert (HK : K <> []) by (intros ->; discriminate).
  split; [split; [discriminate | tauto] |]. split; [discriminate |].
  split; [tauto | eauto].
Qed.

Lemma sorted_fixed (l : list TaintTrace) :
  StronglySorted (fun a b => offset a <= offset b) l -> sorted l = l.
Proof.
  induction 1 as [|x l Hl IH Hx]; [reflexivity |].
  cbn [sorted foldr]. fold (sorted l). rewrite IH.
  destruct l as [|y l]; [reflexivity |].
  cbn [insort]. unfold __lt__.
  inversion Hx; subst.
  now replace (offset y <? offset x) with false by (symmetry; apply Z.ltb_ge; lia).
Qed.

(** X10.  The three lists of a constructed graph are the lists given, sorted:
    the same traces, ascending by offset, traces of one offset in the order
    they were given in; a list given in ascending order is kept as it is. *)
Theorem init_lists_sorted (st : store) (S I K : list TaintTrace)
  (st' : store) (g : TaintTraceGraph) :
  TaintTraceGraph__init__ st S I K = inr (st', g) ->
  Forall2 (fun given kept =>
             Permutation kept given
             /\ StronglySorted (fun a b => offset a <= offset b) kept
             /\ (forall k, List.filter (fun y => offset y =? k) kept
                           = List.filter (fun y => offset y =? k) given)
             /\ (StronglySorted (fun a b => offset a <= offset b) given ->
                 kept = given))
    [S; I; K] [sources g; intermediates g; sinks g].
Proof.
  intros H. apply init_inv in H as (_ & _ & -> & _).
  cbn [sources intermediates sinks].
  repeat constructor;
    auto using sorted_perm, sorted_ascending, sorted_stable, sorted_fixed.
Qed.

Lemma init_lists_sorted_witness :
  Forall2 (fun given kept =>
             Permutation kept given
             /\ StronglySorted (fun a b => offset a <= offset b) kept
             /\ (forall k, List.filter (fun y => offset y =? k) kept
                           = List.filter (fun y => offset y =? k) given)
             /\ (StronglySorted (fun a b => offset a <= offset b) given ->
                 kept = given))
    [[node_B; node_A]; []; [node_C]]
    [sources graph_A; intermediates graph_A; sinks graph_A].
Proof.
  apply (init_lists_sorted (fresh 3) [node_B; node_A] [] [node_C]
           store_A graph_A).
  reflexivity.
Defined.

(** X11.  A graph constructed from traces just created is one path: in the
    sequence of its sources, its intermediates and its first sink, each trace
    has the next one as its only successor (with no intermediate, the last
    source leads to the first sink), and no sink has a successor. *)
Theorem init_links_path (st : store) (S I K : list TaintTrace)
  (st' : store) (g : TaintTraceGraph) :
  unlinked st (S ++ I ++ K) ->
  TaintTraceGraph__init__ st S I K = inr (st', g) ->
  (forall i a b,
     (sources g ++ intermediates g ++ take 1 (sinks g)) !! i = Some a ->
     (sources g ++ intermediates g ++ take 1 (sinks g)) !! (i + 1)%nat = Some b ->
     next_traces st' a = [b])
  /\ (forall k, In k (sinks g) -> next_traces st' k = []).
Proof.
  intros Hun. apply unlinked_sorted in Hun. rewrite init_spec.
  destruct (sorted S) as [|s0 ss] eqn:ES; [discriminate |].
  destruct (sorted K) as [|k0 kk] eqn:EK; [discriminate |].
  rewrite <- ES in *. intros [= <- <-]. cbn [sources intermediates sinks take].
  rewrite app_assoc in Hun. rewrite !app_assoc.
  split.
  - intros i a b Ha Hb. rewrite Nat.add_1_r in Hb.
    unfold next_traces. rewrite (link_succ _ _ i a b); auto.
    + apply path_nodup with kk, Hun.
    + destruct Hun as [_ Hf]. apply Forall_forall. intros x Hx.
      rewrite Forall_forall in Hf. apply (lookup_lt_Some _ _ []), Hf.
      rewrite !elem_of_app in *. destruct Hx as [Hx | Hx]; [now left |].
      right. apply list_elem_of_singleton in Hx as ->. now left.
  - intros k Hk. unfold next_traces.
    now rewrite (proj2 (linked_path _ _ _ _ Hun) k Hk).
Qed.

Lemma init_links_path_witness :
  (forall i a b,
     (sources graph_A ++ intermediates graph_A ++ take 1 (sinks graph_A)) !! i
     = Some a ->
     (sources graph_A ++ intermediates graph_A ++ take 1 (sinks graph_A))
       !! (i + 1)%nat = Some b ->
     next_traces store_A a = [b])
  /\ (forall k, In k (sinks graph_A) -> next_traces store_A k = []).
Proof.
  apply (init_links_path (fresh 3) [node_B; node_A] [] [node_C]).
  - split.
    + apply (bool_decide_unpack _). vm_compute. exact I.
    + repeat constructor.
  - reflexivity.
Defined.

(** X12.  The construction of a graph creates no object and writes only the
    successors of the sources and intermediates it is given: every other
    object of the store, the sinks among them, is as before. *)
Theorem init_frame (st : store) (S I K : list TaintTrace)
  (st' : store) (g : TaintTraceGraph) :
  TaintTraceGraph__init__ st S I K = inr (st', g) ->
  length st' = length st
  /\ forall x, ~ In x (map oid (S ++ I)) -> st' !! x = st !! x.
Proof.
  intros H. apply init_inv in H as (_ & _ & _ & Hlen & Hout & _). now split.
Qed.

Lemma init_frame_witness :
  length store_A = length (fresh 3)
  /\ forall x, ~ In x (map oid ([node_B; node_A] ++ [])) ->
               store_A !! x = fresh 3 !! x.
Proof.
  apply (init_frame (fresh 3) [node_B; node_A] [] [node_C] store_A graph_A).
  reflexivity.
Defined.

(** ** The first loop of the script *)

Lemma load_one_no_trace (c : string) (r : finding)
  (s : store * list (string * list TaintTraceGraph)) :
  extra_dataflow_trace r = None -> load_one c r s = inr s.
Proof. intros H. destruct s. unfold load_one. now rewrite H. Qed.

Lemma filter_nil_existsb {A} (p : A -> bool) (l : list A) :
  List.filter p l = [] <-> existsb p l = false.
Proof.
  induction l as [|x l IH]; simpl; [tauto |].
  destruct (p x); simpl; [split; discriminate | exact IH].
Qed.

Lemma init_fail (st : store) (S I K : list TaintTrace) :
  S = [] \/ K = [] -> TaintTraceGraph__init__ st S I K = inl IndexError.
Proof.
  rewrite init_spec. intros [-> | ->]; [reflexivity |].
  now destruct (sorted S).
Qed.

Lemma init_ok (st : store) (S I K : list TaintTrace) :
  S <> [] -> K <> [] ->
  exists st' g, TaintTraceGraph__init__ st S I K = inr (st', g).
Proof.
  intros HS HK. rewrite init_spec.
  destruct (sorted S) eqn:ES; [now apply sorted_nil_inv in ES |].
  destruct (sorted K) eqn:EK; [now apply sorted_nil_inv in EK |].
  eauto.
Qed.

(** The sources and sinks that [format_source] returns are there or not
    according to [processable]. *)
Lemma format_source_processable (st : store) (r : finding) (c : string)
  (t : dataflow_trace) (st' : store) (S I K : list TaintTrace) :
  extra_dataflow_trace r = Some t ->
  format_source st r c = inr (st', (S, I, K)) ->
  processable c r = true <-> S <> [] /\ K <> [].
Proof.
  intros Et Hf. unfold processable. rewrite Et.
  pose proof (format_source_shape st r c) as H. rewrite Et in H.
  destruct H as (S' & I' & K' & E & HS & _ & HK).
  rewrite Hf in E. injection E as _ <- <- <-.
  rewrite andb_true_iff.
  assert (H1 : existsb (fun sp => negb (String.eqb (raw_text c sp) "."))
                 (taint_source t) = true <-> S <> []).
  { destruct (existsb _ (taint_source t)) eqn:Ex.
    - split; [| reflexivity]. intros _ ->.
      symmetry in HS. apply filter_nil_existsb in HS. congruence.
    - apply filter_nil_existsb in Ex. rewrite Ex in HS.
      apply map_eq_nil in HS. split; [discriminate | congruence]. }
  assert (H2 : negb (String.eqb (raw_text c (finding_range r)) ".") = true
               <-> K <> []).
  { destruct (String.eqb _ ".").
    - apply map_eq_nil in HK. split; [discriminate | congruence].
    - split; [| reflexivity]. intros _ ->. discriminate. }
  tauto.
Qed.

Lemma load_one_result (c : string) (r : finding)
  (s : store * list (string * list TaintTraceGraph)) :
  if processable c r then exists s', load_one c r s = inr s'
  else load_one c r s = inl IndexError.
Proof.
  destruct (extra_dataflow_trace r) as [t|] eqn:Et.
  2:{ unfold processable. rewrite Et. exists s. now apply load_one_no_trace. }
  destruct s as [st results]. unfold load_one. rewrite Et.
  pose proof (format_source_shape st r c) as H. rewrite Et in H.
  destruct H as (S & I & K & E & _). rewrite E. cbn [bind].
  pose proof (format_source_processable _ _ _ _ _ _ _ _ Et E) as Hp.
  destruct (processable c r).
  - destruct Hp as [Hp _]. destruct (Hp eq_refl) as [HS HK].
    match goal with
    | |- context [TaintTraceGraph__init__ ?s0 S I K] =>
        destruct (init_ok s0 S I K HS HK) as (st' & g & Ei)
    end.
    rewrite Ei. cbn [bind ret]. eauto.
  - rewrite init_fail; [reflexivity |].
    destruct S; [now left |]. destruct K; [now right |].
    destruct Hp as [_ Hp]. discriminate Hp. split; discriminate.
Qed.

Lemma for_each_load_result (c : string) (data : list finding)
  (s : store * list (string * list TaintTraceGraph)) :
  if forallb (processable c) data
  then exists s', for_each data (load_one c) s = inr s'
  else for_each data (load_one c) s = inl IndexError.
Proof.
  revert s. induction data as [|r data IH]; intros s; [simpl; eauto |].
  cbn [forallb for_each]. pose proof (load_one_result c r s) as H.
  destruct (processable c r); cbn [andb].
  - destruct H as [s' ->]. cbn [bind]. apply IH.
  - now rewrite H.
Qed.

(** X13.  The first loop completes exactly when every finding with a
    dataflow trace has a source range and its own range with a text other
    than the dot; if not, it ends with [IndexError]: no other exception, and
    no finding is skipped over. *)
Theorem load_completes_iff (data : list finding) (c : string) :
  ((exists s, load data c = inr s) <-> forallb (processable c) data = true)
  /\ (load data c = inl IndexError <-> forallb (processable c) data = false)
  /\ load data c <> inl KeyError.
Proof.
  unfold load. pose proof (for_each_load_result c data ([], [])) as H.
  destruct (forallb (processable c) data).
  - destruct H as [s ->]. split; [split; eauto |].
    split; [split; discriminate | discriminate].
  - rewrite H. split; [split; [intros [? [=]] | discriminate] |].
    split; [tauto | discriminate].
Qed.

Lemma for_each_load_skip (c : string) (data : list finding)
  (s : store * list (string * list TaintTraceGraph)) :
  for_each data (load_one c) s
  = for_each (List.filter has_trace data) (load_one c) s.
Proof.
  revert s. induction data as [|r data IH]; intros s; [reflexivity |].
  cbn [List.filter for_each]. unfold has_trace at 1.
  destruct (extra_dataflow_trace r) eqn:Et.
  - cbn [for_each]. destruct (load_one c r s); [reflexivity | apply IH].
  - rewrite load_one_no_trace by exact Et. apply IH.
Qed.

(** X14.  Findings without a dataflow trace leave no mark: the store and
    the dict after the first loop, or its exception, are those of the run on
    the findings that have one. *)
Theorem load_skips_findings_without_trace (data : list finding) (c : string) :
  load data c = load (List.filter has_trace data) c
  /\ main data c = main (List.filter has_trace data) c.
Proof.
  assert (H : load data c = load (List.filter has_trace data) c)
    by apply for_each_load_skip.
  split; [exact H |]. unfold main. now rewrite H.
Qed.

Lemma load_one_trace (c : string) (r : finding) (t : dataflow_trace)
  (st : store) (results : list (string * list TaintTraceGraph))
  (st' : store) (results' : list (string * list TaintTraceGraph)) :
  extra_dataflow_trace r = Some t ->
  load_one c r (st, results) = inr (st', results') ->
  exists st1 S I K g,
    format_source st r c = inr (st1, (S, I, K))
    /\ TaintTraceGraph__init__ st1 S I K = inr (st', g)
    /\ results'
       = dict_append (if dict_mem results (check_id r) then results
                      else dict_new results (check_id r)) (check_id r) g.
Proof.
  intros Et. unfold load_one. rewrite Et.
  destruct (format_source st r c) as [e | [st1 [[S I] K]]]; [discriminate |].
  cbn [bind].
  destruct (TaintTraceGraph__init__ st1 S I K) as [e | [st2 g]] eqn:Ei;
    [discriminate |].
  cbn [bind ret]. intros [= <- <-]. eauto 10.
Qed.

Lemma init_linked_as_path (st : store) (S I K : list TaintTrace)
  (st' : store) (g : TaintTraceGraph) :
  unlinked st (S ++ I ++ K) ->
  TaintTraceGraph__init__ st S I K = inr (st', g) ->
  linked_as_path st' g.
Proof.
  intros Hun. apply unlinked_sorted in Hun. rewrite init_spec.
  destruct (sorted S) as [|s0 ss] eqn:ES; [discriminate |].
  destruct (sorted K) as [|k0 kk] eqn:EK; [discriminate |].
  rewrite <- ES in *. intros [= <- <-].
  unfold linked_as_path, path_of. cbn [sources intermediates sinks take].
  rewrite app_assoc in Hun. rewrite !app_assoc.
  split.
  - intros i a b Ha Hb. rewrite Nat.add_1_r in Hb.
    apply (link_succ _ _ i a b); auto.
    + apply path_nodup with kk, Hun.
    + destruct Hun as [_ Hf]. apply Forall_forall. intros x Hx.
      rewrite Forall_forall in Hf. apply (lookup_lt_Some _ _ []), Hf.
      rewrite !elem_of_app in *. destruct Hx as [Hx | Hx]; [now left |].
      right. apply list_elem_of_singleton in Hx as ->. now left.
  - exact (proj2 (linked_path _ _ _ _ Hun)).
Qed.

Lemma linked_as_path_later (st st' : store) (g : TaintTraceGraph) :
  (forall x, (x < length st)%nat -> st' !! x = st !! x) ->
  linked_as_path st g -> linked_as_path st' g.
Proof.
  intros Hsame [Hp Hk]. split.
  - intros i a b Ha Hb. specialize (Hp i a b Ha Hb).
    rewrite Hsame; [exact Hp |]. now apply lookup_lt_Some in Hp.
  - intros k Hin. specialize (Hk k Hin).
    rewrite Hsame; [exact Hk |]. now apply lookup_lt_Some in Hk.
Qed.

Lemma load_one_paths (c : string) (r : finding)
  (s s' : store * list (string * list TaintTraceGraph)) :
  all_graphs (fun g => sources g <> [] /\ length (sinks g) = 1%nat
                       /\ linked_as_path (fst s) g) (snd s) ->
  load_one c r s = inr s' ->
  all_graphs (fun g => sources g <> [] /\ length (sinks g) = 1%nat
                       /\ linked_as_path (fst s') g) (snd s').
Proof.
  destruct s as [st results], s' as [st' results']. cbn [fst snd].
  intros Hall H. destruct (extra_dataflow_trace r) as [t|] eqn:Et.
  2:{ rewrite load_one_no_trace in H by exact Et. now injection H as <- <-. }
  destruct (load_one_trace _ _ _ _ _ _ _ Et H)
    as (st1 & S & I & K & g & Hf & Hi & ->).
  destruct (construct_spec _ _ _ _ _ _ _ _ _ Hf Hi)
    as (Hsame & _ & _ & Hone & _ & _).
  destruct (format_source_spec _ _ _ _ _ _ _ Hf) as (Hun & _).
  destruct (init_inv _ _ _ _ _ _ Hi) as (HS & _ & Eg & _).
  apply all_graphs_append.
  - eapply all_graphs_impl with
      (P := fun g => sources g <> [] /\ length (sinks g) = 1%nat
                     /\ linked_as_path st g).
    + intros g0 (H1 & H2 & H3). split; [exact H1 |]. split; [exact H2 |].
      now apply linked_as_path_later with st.
    + destruct (dict_mem results (check_id r)); [exact Hall |].
      now apply all_graphs_new.
  - split; [| split; [exact Hone | now apply (init_linked_as_path st1 S I K)]].
    rewrite Eg. cbn [sources]. intros E. now apply sorted_nil_inv in E.
Qed.

(** X15.  When the first loop has completed, every graph of the dict has a
    source and exactly one sink, and is still linked in the final store as
    the path it was constructed as: each trace of its sources, intermediates
    and sink has the next one as its only successor, the sink none.  The
    graphs constructed later have changed none of it. *)
Theorem load_graphs_are_paths (data : list finding) (c : string) (st : store)
  (results : list (string * list TaintTraceGraph)) :
  load data c = inr (st, results) ->
  all_graphs (fun g => sources g <> [] /\ length (sinks g) = 1%nat
                       /\ linked_as_path st g) results.
Proof.
  intros H.
  apply (for_each_inv
           (fun s => all_graphs
                       (fun g => sources g <> [] /\ length (sinks g) = 1%nat
                                 /\ linked_as_path (fst s) g) (snd s))
           (load_one c) (load_one_paths c) data ([], []) (st, results));
    [constructor | exact H].
Qed.

Lemma load_graphs_are_paths_witness :
  all_graphs (fun g => sources g <> [] /\ length (sinks g) = 1%nat
                       /\ linked_as_path sample_store g)
    [("rule", [graph_c; graph_e])].
Proof.
  apply (load_graphs_are_paths [finding_c; finding_e] sample_contents).
  reflexivity.
Defined.

(** ** The dict of the first loop *)

Lemma dict_mem_keys (results : list (string * list TaintTraceGraph))
  (k : string) :
  dict_mem results k = existsb (fun k' => String.eqb k' k) (map fst results).
Proof.
  unfold dict_mem. induction results as [|kv results IH]; [reflexivity |].
  simpl. now rewrite IH.
Qed.

Lemma dict_new_keys results k : map fst (dict_new results k) = map fst results ++ [k].
Proof. unfold dict_new. now rewrite map_app. Qed.

Lemma dict_append_keys results k g :
  map fst (dict_append results k g) = map fst results.
Proof.
  induction results as [|[k' gs] results IH]; [reflexivity |].
  simpl. destruct (String.eqb k' k); simpl; [reflexivity | now rewrite IH].
Qed.

Lemma dict_get_new results k k' :
  dict_get (dict_new results k) k' = dict_get results k'.
Proof.
  unfold dict_new. induction results as [|[k0 gs] results IH]; simpl.
  - now destruct (String.eqb k k').
  - now destruct (String.eqb k0 k').
Qed.

Lemma dict_get_append results k g k' :
  dict_mem results k = true ->
  dict_get (dict_append results k g) k'
  = if String.eqb k k' then dict_get results k' ++ [g] else dict_get results k'.
Proof.
  unfold dict_mem. induction results as [|[k0 gs] results IH]; [discriminate |].
  cbn [existsb fst dict_append dict_get].
  destruct (String.eqb_spec k0 k) as [-> | Hne].
  - intros _. cbn [dict_get]. now destruct (String.eqb k k').
  - cbn [orb dict_get]. intros H.
    destruct (String.eqb_spec k0 k') as [-> | Hne'].
    + destruct (String.eqb_spec k k'); [congruence | reflexivity].
    + now apply IH.
Qed.

Lemma dict_mem_new results k : dict_mem (dict_new results k) k = true.
Proof.
  unfold dict_mem, dict_new. rewrite existsb_app. simpl.
  now rewrite String.eqb_refl, orb_true_r.
Qed.

Lemma add_key_NoDup (keys : list string) (k : string) :
  NoDup keys -> NoDup (add_key keys k).
Proof.
  intros H. unfold add_key.
  destruct (existsb (fun k' => String.eqb k' k) keys) eqn:E; [exact H |].
  apply NoDup_app. split; [exact H |]. split; [| apply NoDup_singleton].
  intros x Hx Hk. apply list_elem_of_singleton in Hk as ->.
  assert (existsb (fun k' => String.eqb k' k) keys = true); [| congruence].
  apply existsb_exists. exists k. split; [now apply list_elem_of_In |].
  apply String.eqb_refl.
Qed.

Lemma fold_add_key_NoDup (ids keys : list string) :
  NoDup keys -> NoDup (fold_left add_key ids keys).
Proof.
  revert keys. induction ids as [|k ids IH]; intros keys H; [exact H |].
  simpl. now apply IH, add_key_NoDup.
Qed.

(** A graph of the script has the range of its finding as its sink. *)
Lemma script_graph_sink (st : store) (r : finding) (c : string)
  (st1 : store) (S I K : list TaintTrace) (st2 : store) (g : TaintTraceGraph) :
  format_source st r c = inr (st1, (S, I, K)) ->
  TaintTraceGraph__init__ st1 S I K = inr (st2, g) ->
  map trace_range (sinks g) = [finding_range r].
Proof.
  intros Hf Hi.
  destruct (init_inv _ _ _ _ _ _ Hi) as (_ & HK & -> & _). cbn [sinks].
  pose proof (format_source_shape st r c) as H.
  destruct (extra_dataflow_trace r) as [t|]; [| congruence].
  destruct H as (S' & I' & K' & E & _ & _ & Hk).
  rewrite Hf in E. injection E as _ <- <- <-.
  destruct (String.eqb _ "."); [now apply map_eq_nil in Hk |].
  destruct K as [|k [|? ?]]; try discriminate. exact Hk.
Qed.

Lemma for_each_load_dict (c : string) (data : list finding)
  (st0 : store) (res0 : list (string * list TaintTraceGraph))
  (st : store) (res : list (string * list TaintTraceGraph)) :
  for_each data (load_one c) (st0, res0) = inr (st, res) ->
  map fst res
  = fold_left add_key (map check_id (List.filter has_trace data)) (map fst res0)
  /\ forall k,
       sink_ranges (dict_get res k)
       = sink_ranges (dict_get res0 k)
         ++ map (fun r => [finding_range r])
              (List.filter
                 (fun r => has_trace r && String.eqb (check_id r) k) data).
Proof.
  revert st0 res0. induction data as [|r data IH]; intros st0 res0.
  - intros [= <- <-]. split; [reflexivity |]. intros k. now rewrite app_nil_r.
  - cbn [for_each].
    destruct (load_one c r (st0, res0)) as [e | [st1 res1]] eqn:E1;
      [discriminate |].
    cbn [bind]. intros H. destruct (IH _ _ H) as [Hkeys Hget]. clear IH H.
    cbn [List.filter].
    destruct (extra_dataflow_trace r) as [t|] eqn:Et.
    2:{ assert (Hr : has_trace r = false) by (unfold has_trace; now rewrite Et).
        rewrite load_one_no_trace in E1 by exact Et.
        injection E1 as <- <-. rewrite Hr. now split. }
    assert (Hr : has_trace r = true) by (unfold has_trace; now rewrite Et).
    rewrite Hr.
    destruct (load_one_trace _ _ _ _ _ _ _ Et E1)
      as (st' & S & I & K & g & Hf & Hi & ->).
    pose proof (script_graph_sink _ _ _ _ _ _ _ _ _ Hf Hi) as Hsink.
    split.
    + rewrite Hkeys, dict_append_keys. cbn [map fold_left]. f_equal.
      unfold add_key. rewrite <- dict_mem_keys.
      destruct (dict_mem res0 (check_id r)); [reflexivity |].
      apply dict_new_keys.
    + intros k. rewrite Hget. cbn [andb].
      rewrite dict_get_append.
      2:{ destruct (dict_mem res0 (check_id r)) eqn:Em;
            [exact Em | apply dict_mem_new]. }
      assert (Hsame : dict_get (if dict_mem res0 (check_id r) then res0
                                else dict_new res0 (check_id r)) k
                      = dict_get res0 k).
      { destruct (dict_mem res0 (check_id r)); [reflexivity |].
        apply dict_get_new. }
      rewrite Hsame.
      destruct (String.eqb (check_id r) k); [| reflexivity].
      unfold sink_ranges. rewrite map_app. cbn [map app].
      now rewrite Hsink, <- app_assoc.
Qed.

(** X16.  When the first loop has completed, the keys of the dict are the
    check ids of the findings with a dataflow trace, each once, in the order
    of their first finding; and under each check id there is one graph per
    such finding of that check id, in the order of the findings, its only
    sink being the range of the finding. *)
Theorem load_dict_shape (data : list finding) (c : string) (st : store)
  (results : list (string * list TaintTraceGraph)) :
  load data c = inr (st, results) ->
  map fst results = first_seen (map check_id (List.filter has_trace data))
  /\ NoDup (map fst results)
  /\ forall k,
       sink_ranges (dict_get results k)
       = map (fun r => [finding_range r])
           (List.filter
              (fun r => has_trace r && String.eqb (check_id r) k) data).
Proof.
  intros H. destruct (for_each_load_dict _ _ _ _ _ _ H) as [Hkeys Hget].
  split; [exact Hkeys |]. split; [| exact Hget].
  rewrite Hkeys. apply fold_add_key_NoDup, NoDup_nil_2.
Qed.

Lemma load_dict_shape_witness :
  map fst [("rule", [graph_c; graph_e])]
  = first_seen (map check_id (List.filter has_trace [finding_c; finding_e]))
  /\ NoDup (map fst [("rule", [graph_c; graph_e])])
  /\ forall k,
       sink_ranges (dict_get [("rule", [graph_c; graph_e])] k)
       = map (fun r => [finding_range r])
           (List.filter
              (fun r => has_trace r && String.eqb (check_id r) k)
              [finding_c; finding_e]).
Proof.
  apply (load_dict_shape [finding_c; finding_e] sample_contents sample_store).
  reflexivity.
Defined.

(** ** The clustering loop *)

Lemma intersects_sym (g h : TaintTraceGraph) : intersects g h = intersects h g.
Proof.
  apply eq_true_iff_eq. rewrite !intersects_spec.
  split; intros [H | [H | H]]; auto using overlap_sym.
Qed.

Lemma omap_lookup_seq {A} (rest pre : list A) :
  omap (fun i => (pre ++ rest) !! i) (seq (length pre) (length rest)) = rest.
Proof.
  revert pre. induction rest as [|x rest IH]; intros pre; [reflexivity |].
  cbn [length seq omap list_omap].
  rewrite lookup_app_r, Nat.sub_diag by lia. cbn [lookup list_lookup].
  f_equal. specialize (IH (pre ++ [x])).
  rewrite <- app_assoc, length_app in IH. cbn [length app] in IH.
  now rewrite Nat.add_1_r in IH.
Qed.

Section Disjoint.

Variable gs : list TaintTraceGraph.
Hypothesis apart : forall i j g h,
  i <> j -> gs !! i = Some g -> gs !! j = Some h -> intersects g h = false.

Lemma cluster_inner_apart (g h : nat) : cluster_inner g h (gs, []) = (gs, []).
Proof.
  unfold cluster_inner. cbn [mem existsb].
  destruct (Nat.eqb_spec g h) as [-> | Hne]; [reflexivity |].
  destruct (gs !! g) as [vg|] eqn:Eg; [| reflexivity].
  destruct (gs !! h) as [vh|] eqn:Eh; [| reflexivity].
  now rewrite (apart g h vg vh Hne Eg Eh).
Qed.

Lemma cluster_inner_loop_apart (g : nat) (ids : list nat) :
  fold_left (fun s h => cluster_inner g h s) ids (gs, []) = (gs, []).
Proof.
  induction ids as [|h ids IH]; [reflexivity |].
  cbn [fold_left]. now rewrite cluster_inner_apart.
Qed.

Lemma cluster_outer_loop_apart (ids l final : list nat) :
  fold_left (fun s g => cluster_outer ids g s) l (gs, [], final)
  = (gs, [], final ++ l).
Proof.
  revert final. induction l as [|g l IH]; intros final.
  - now rewrite app_nil_r.
  - cbn [fold_left]. unfold cluster_outer at 2. cbn [mem existsb].
    rewrite cluster_inner_loop_apart, IH, <- app_assoc. reflexivity.
Qed.

Lemma cluster_apart : cluster gs = gs.
Proof.
  unfold cluster. rewrite cluster_outer_loop_apart. cbn [app].
  apply (omap_lookup_seq gs []).
Qed.

End Disjoint.

(** X17.  Graphs of which no two intersect are returned as they are: as many
    clusters as graphs, in the same order, nothing merged. *)
Theorem cluster_of_disjoint_graphs (gs : list TaintTraceGraph) :
  (forall i j g h,
     i <> j -> gs !! i = Some g -> gs !! j = Some h -> intersects g h = false) ->
  cluster gs = gs.
Proof. apply cluster_apart. Qed.

Lemma cluster_of_disjoint_graphs_witness : cluster [cross_g; cross_h] = [cross_g; cross_h].
Proof.
  apply (cluster_of_disjoint_graphs [cross_g; cross_h]).
  intros [|[|i]] [|[|j]] g h Hne Hg Hh; try discriminate; try congruence;
    injection Hg as <-; injection Hh as <-; reflexivity.
Defined.

(** X18.  No graph gives no cluster and one graph gives itself.  Two graphs
    that intersect give one cluster, the first graph with the lists of the
    second appended to its own, and two graphs that do not intersect give two
    clusters, the graphs themselves. *)
Theorem cluster_of_two (g h : TaintTraceGraph) :
  cluster [] = []
  /\ cluster [g] = [g]
  /\ cluster [g; h] = if intersects g h then [update g h] else [g; h].
Proof.
  split; [reflexivity |]. split; [reflexivity |].
  unfold cluster. cbv -[intersects update].
  destruct (intersects g h) eqn:E; [reflexivity |].
  rewrite intersects_sym, E. reflexivity.
Qed.

Lemma extends_refl (g : TaintTraceGraph) : extends g g.
Proof. repeat split; apply incl_refl. Qed.

Lemma extends_trans (g1 g2 g3 : TaintTraceGraph) :
  extends g1 g2 -> extends g2 g3 -> extends g1 g3.
Proof.
  intros (A1 & A2 & A3) (B1 & B2 & B3).
  repeat split; eapply incl_tran; eassumption.
Qed.

Lemma extends_update_l (g h : TaintTraceGraph) : extends g (update g h).
Proof. repeat split; apply incl_appl, incl_refl. Qed.

Lemma extends_update_r (g h : TaintTraceGraph) : extends h (update g h).
Proof. repeat split; apply incl_appr, incl_refl. Qed.

Lemma mem_In (x : nat) (l : list nat) : mem x l = true <-> In x l.
Proof.
  unfold mem. rewrite existsb_exists. split.
  - intros (y & Hy & ->%Nat.eqb_eq). exact Hy.
  - intros H. exists x. split; [exact H | apply Nat.eqb_refl].
Qed.

Lemma in_omap_lookup {A} (l : list A) (final : list nat) (j : nat) (x : A) :
  In j final -> l !! j = Some x -> In x (omap (fun i => l !! i) final).
Proof.
  intros Hj Hx. apply list_elem_of_In, list_elem_of_omap.
  exists j. split; [now apply list_elem_of_In | exact Hx].
Qed.

(** What one turn of the inner loop does to the lists of the graphs and to
    [seen]: no list loses a trace, and a graph that enters [seen] has its
    traces in the graph [gi] from then on. *)
Lemma cluster_inner_step (gi h : nat) (cur : list TaintTraceGraph)
  (seen : list nat) (cur' : list TaintTraceGraph) (seen' : list nat) :
  cluster_inner gi h (cur, seen) = (cur', seen') ->
  (forall j g, cur !! j = Some g ->
               exists g', cur' !! j = Some g' /\ extends g g')
  /\ (forall i, In i seen -> In i seen')
  /\ (forall i, In i seen' ->
        In i seen
        \/ exists vh g', cur !! i = Some vh /\ cur' !! gi = Some g'
                         /\ extends vh g').
Proof.
  unfold cluster_inner.
  assert (Hsame : (cur, seen) = (cur', seen') ->
    (forall j g, cur !! j = Some g ->
                 exists g', cur' !! j = Some g' /\ extends g g')
    /\ (forall i, In i seen -> In i seen')
    /\ (forall i, In i seen' ->
          In i seen
          \/ exists vh g', cur !! i = Some vh /\ cur' !! gi = Some g'
                           /\ extends vh g')).
  { intros [= <- <-]. split; [| split; auto].
    intros j g Hg. exists g. split; [exact Hg | apply extends_refl]. }
  destruct (mem h seen); [exact Hsame |].
  destruct (Nat.eqb gi h); [exact Hsame |].
  destruct (cur !! gi) as [vg|] eqn:Eg; [| exact Hsame].
  destruct (cur !! h) as [vh|] eqn:Eh; [| exact Hsame].
  destruct (intersects vg vh); [| exact Hsame].
  clear Hsame. intros [= <- <-].
  pose proof (lookup_lt_Some _ _ _ Eg) as Hlt.
  split; [| split].
  - intros j g Hg. destruct (Nat.eq_dec gi j) as [<- | Hne].
    + rewrite list_lookup_insert_eq by exact Hlt.
      exists (update vg vh). split; [reflexivity |].
      replace g with vg by congruence. apply extends_update_l.
    + rewrite list_lookup_insert_ne by exact Hne.
      exists g. split; [exact Hg | apply extends_refl].
  - intros i Hi. apply in_or_app. now left.
  - intros i [Hi | [<- | []]]%in_app_or; [now left |]. right.
    exists vh, (update vg vh). split; [exact Eh |].
    split; [now apply list_lookup_insert_eq | apply extends_update_r].
Qed.

Section Coverage.

Variable orig : list TaintTraceGraph.

Local Abbreviation kept_in_place := (kept_in_place orig).
Local Abbreviation absorbed_into := (absorbed_into orig).

Lemma cluster_inner_covers (gi : nat) (final : list nat) (h : nat)
  (s : list TaintTraceGraph * list nat) :
  kept_in_place (fst s) /\ absorbed_into (final ++ [gi]) (fst s) (snd s) ->
  kept_in_place (fst (cluster_inner gi h s))
  /\ absorbed_into (final ++ [gi]) (fst (cluster_inner gi h s))
       (snd (cluster_inner gi h s)).
Proof.
  destruct s as [cur seen]. cbn [fst snd]. intros [HK HA].
  destruct (cluster_inner gi h (cur, seen)) as [cur' seen'] eqn:E.
  cbn [fst snd].
  destruct (cluster_inner_step _ _ _ _ _ _ E) as (Hgrow & _ & Hseen).
  split.
  - intros i g Hg. destruct (HK i g Hg) as (g1 & H1 & X1).
    destruct (Hgrow i g1 H1) as (g2 & H2 & X2).
    exists g2. split; [exact H2 | now apply extends_trans with g1].
  - intros i g Hi Hg. destruct (Hseen i Hi) as [Hold | (vh & g' & Hvh & Hgi & X)].
    + destruct (HA i g Hold Hg) as (j & g1 & Hj & H1 & X1).
      destruct (Hgrow j g1 H1) as (g2 & H2 & X2).
      exists j, g2. split; [exact Hj |]. split; [exact H2 |].
      now apply extends_trans with g1.
    + destruct (HK i g Hg) as (g1 & H1 & X1).
      assert (g1 = vh) as -> by congruence.
      exists gi, g'. split; [apply in_or_app; right; now left |].
      split; [exact Hgi | now apply extends_trans with vh].
Qed.

Lemma cluster_outer_covers (ids : list nat) (gi : nat)
  (s : list TaintTraceGraph * list nat * list nat) :
  kept_in_place (fst (fst s))
  /\ absorbed_into (snd s) (fst (fst s)) (snd (fst s)) ->
  kept_in_place (fst (fst (cluster_outer ids gi s)))
  /\ absorbed_into (snd (cluster_outer ids gi s))
       (fst (fst (cluster_outer ids gi s)))
       (snd (fst (cluster_outer ids gi s))).
Proof.
  destruct s as [[cur seen] final]. cbn [fst snd]. intros [HK HA].
  unfold cluster_outer. destruct (mem gi seen); [now split |].
  assert (H0 : kept_in_place (fst (cur, seen))
               /\ absorbed_into (final ++ [gi]) (fst (cur, seen)) (snd (cur, seen))).
  { split; [exact HK |]. intros i g Hi Hg.
    destruct (HA i g Hi Hg) as (j & g' & Hj & H').
    exists j, g'. split; [apply in_or_app; now left | exact H']. }
  pose proof (fold_left_inv
                (fun s => kept_in_place (fst s)
                          /\ absorbed_into (final ++ [gi]) (fst s) (snd s))
                (fun s h => cluster_inner gi h s) ids (cur, seen)
                (fun a b => cluster_inner_covers gi final b a) H0) as H.
  now destruct (fold_left _ ids (cur, seen)).
Qed.

(** [seen] and [final] only grow, and the graph of a turn of the outer loop
    is in one of them afterwards. *)
Lemma cluster_outer_marks (ids : list nat) (gi : nat)
  (s : list TaintTraceGraph * list nat * list nat) :
  (forall i, In i (snd (fst s)) -> In i (snd (fst (cluster_outer ids gi s))))
  /\ (forall i, In i (snd s) -> In i (snd (cluster_outer ids gi s)))
  /\ (In gi (snd (fst (cluster_outer ids gi s)))
      \/ In gi (snd (cluster_outer ids gi s)))
  /\ (length (snd (cluster_outer ids gi s)) <= Datatypes.S (length (snd s)))%nat.
Proof.
  destruct s as [[cur seen] final]. cbn [fst snd].
  unfold cluster_outer. destruct (mem gi seen) eqn:Em.
  - cbn [fst snd]. apply mem_In in Em. repeat split; auto.
  - pose proof (fold_left_inv
                  (fun s => forall i, In i seen -> In i (snd s))
                  (fun s h => cluster_inner gi h s) ids (cur, seen)) as H.
    destruct (fold_left _ ids (cur, seen)) as [cur' seen'].
    cbn [fst snd] in *. split; [| split; [| split]].
    + apply H; [| auto]. intros [c0 s0] h Hs i Hi. cbn [snd] in Hs.
      destruct (cluster_inner gi h (c0, s0)) as [c1 s1] eqn:E. cbn [snd].
      apply (cluster_inner_step _ _ _ _ _ _ E). now apply Hs.
    + intros i Hi. apply in_or_app. now left.
    + right. apply in_or_app. right. now left.
    + rewrite length_app. simpl. lia.
Qed.

Lemma cluster_outer_loop_marks (ids l : list nat)
  (s : list TaintTraceGraph * list nat * list nat) :
  let s' := fold_left (fun s g => cluster_outer ids g s) l s in
  (forall i, In i (snd (fst s)) -> In i (snd (fst s')))
  /\ (forall i, In i (snd s) -> In i (snd s'))
  /\ (forall i, In i l -> In i (snd (fst s')) \/ In i (snd s'))
  /\ (length (snd s') <= length (snd s) + length l)%nat.
Proof.
  revert s. induction l as [|g l IH]; intros s; cbn [fold_left].
  - repeat split; auto; [intros i [] | lia].
  - destruct (cluster_outer_marks ids g s) as (M1 & M2 & M3 & M4).
    destruct (IH (cluster_outer ids g s)) as (N1 & N2 & N3 & N4).
    cbv zeta in *. split; [| split; [| split]]; auto.
    + intros i [<- | Hi]; [destruct M3; auto | auto].
    + cbn [length]. lia.
Qed.

(** Every graph given is within one of the graphs that [cluster] returns. *)
Lemma cluster_covers (g : TaintTraceGraph) :
  In g orig -> exists g', In g' (cluster orig) /\ extends g g'.
Proof.
  intros Hg. apply list_elem_of_In, list_elem_of_lookup in Hg as [i Hi].
  unfold cluster. set (ids := seq 0 (length orig)).
  pose proof (fold_left_inv
                (fun s => kept_in_place (fst (fst s))
                          /\ absorbed_into (snd s) (fst (fst s)) (snd (fst s)))
                (fun s g => cluster_outer ids g s) ids (orig, [], [])
                (fun a b => cluster_outer_covers ids b a)) as Hinv.
  destruct (cluster_outer_loop_marks ids ids (orig, [], [])) as (_ & _ & Hmark & _).
  cbv zeta in Hmark.
  destruct (fold_left _ ids (orig, [], [])) as [[cur seen] final].
  cbn [fst snd] in *.
  destruct Hinv as [HK HA].
  { split.
    - intros j x Hx. exists x. split; [exact Hx | apply extends_refl].
    - intros j x []. }
  assert (Hin : In i ids).
  { apply in_seq. apply lookup_lt_Some in Hi. lia. }
  destruct (Hmark i Hin) as [Hs | Hf].
  - destruct (HA i g Hs Hi) as (j & g' & Hj & Hg' & X).
    exists g'. split; [now apply in_omap_lookup with j | exact X].
  - destruct (HK i g Hi) as (g' & Hg' & X).
    exists g'. split; [now apply in_omap_lookup with i | exact X].
Qed.

Lemma cluster_length : (length (cluster orig) <= length orig)%nat.
Proof.
  unfold cluster. set (ids := seq 0 (length orig)).
  destruct (cluster_outer_loop_marks ids ids (orig, [], [])) as (_ & _ & _ & Hlen).
  cbv zeta in Hlen.
  destruct (fold_left _ ids (orig, [], [])) as [[cur seen] final].
  cbn [fst snd length] in Hlen. subst ids. rewrite length_seq in Hlen.
  etransitivity; [| exact Hlen]. clear.
  induction final as [|j final IH]; [reflexivity |].
  cbn [omap list_omap]. destruct (cur !! j); cbn [length]; lia.
Qed.

End Coverage.

(** X19.  Clustering invents nothing: every trace of a cluster is a trace of
    one of the graphs given, in the same role. *)
Theorem cluster_traces_come_from_graphs (gs : list TaintTraceGraph) :
  Forall (fun g' =>
            (forall x, In x (sources g') ->
                       exists g, In g gs /\ In x (sources g))
            /\ (forall x, In x (intermediates g') ->
                          exists g, In g gs /\ In x (intermediates g))
            /\ (forall x, In x (sinks g') ->
                          exists g, In g gs /\ In x (sinks g)))
    (cluster gs).
Proof.
  apply cluster_keeps.
  - intros g h (G1 & G2 & G3) (H1 & H2 & H3). cbn [update sources intermediates sinks].
    repeat split; intros x [Hx | Hx]%in_app_or; auto.
  - apply Forall_forall. intros g Hg%list_elem_of_In. repeat split; eauto.
Qed.

(** X20.  Clustering loses nothing: every graph given is within a cluster,
    all its sources among the sources of that cluster, its intermediates
    among the intermediates and its sinks among the sinks. *)
Theorem cluster_loses_no_trace (gs : list TaintTraceGraph) (g : TaintTraceGraph) :
  In g gs -> exists g', In g' (cluster gs) /\ extends g g'.
Proof. apply cluster_covers. Qed.

Lemma cluster_loses_no_trace_witness :
  exists g', In g' (cluster [graph_c; graph_e]) /\ extends graph_e g'.
Proof.
  apply (cluster_loses_no_trace [graph_c; graph_e] graph_e).
  right. now left.
Defined.

(** X21.  There are never more clusters than graphs, and graphs there are
    give at least one cluster. *)
Theorem cluster_size (gs : list TaintTraceGraph) :
  (length (cluster gs) <= length gs)%nat /\ (gs <> [] -> cluster gs <> []).
Proof.
  split; [apply cluster_length |].
  destruct gs as [|g gs]; [congruence |]. intros _ E.
  destruct (cluster_covers (g :: gs) g) as (g' & Hg' & _); [now left |].
  rewrite E in Hg'. destruct Hg'.
Qed.

(** X22.  The clusters depend on the order of the graphs, and clusters need
    not be apart: [chain_a; chain_b; chain_c] gives one cluster, the same
    graphs in the order [chain_a; chain_c; chain_b] give two, the second of
    which holds every trace of the first. *)
Theorem cluster_depends_on_order :
  Permutation [chain_a; chain_b; chain_c] [chain_a; chain_c; chain_b]
  /\ cluster [chain_a; chain_b; chain_c]
     = [update (update chain_a chain_b) chain_c]
  /\ cluster [chain_a; chain_c; chain_b]
     = [update chain_a chain_b; update chain_c (update chain_a chain_b)]
  /\ intersects (update chain_a chain_b)
       (update chain_c (update chain_a chain_b)) = true.
Proof.
  split; [apply perm_skip, perm_swap |]. repeat split.
Qed.

(** ** From the findings to the clusters *)

Lemma dict_get_map_cluster (results : list (string * list TaintTraceGraph))
  (k : string) :
  dict_get (map (fun kv => (fst kv, cluster (snd kv))) results) k
  = cluster (dict_get results k).
Proof.
  induction results as [|[k' gs] results IH]; [reflexivity |].
  cbn [map dict_get fst snd]. now destruct (String.eqb k' k).
Qed.

(** X23.  No finding is lost between the input and the output of the
    script: when a run completes, the range of every finding with a dataflow
    trace is the range of a sink of one of the clusters printed for its
    check id. *)
Theorem main_keeps_every_finding (data : list finding) (c : string)
  (st : store) (out : list (string * list TaintTraceGraph)) (r : finding) :
  main data c = inr (st, out) ->
  In r data -> has_trace r = true ->
  exists g', In g' (dict_get out (check_id r))
             /\ In (finding_range r) (map trace_range (sinks g')).
Proof.
  unfold main. destruct (load data c) as [e | [st' results]] eqn:E;
    [discriminate |].
  cbn [bind ret]. intros [= <- <-] Hr Ht.
  rewrite dict_get_map_cluster.
  destruct (for_each_load_dict _ _ _ _ _ _ E) as [_ Hget].
  specialize (Hget (check_id r)). cbn [dict_get sink_ranges map app] in Hget.
  assert (Hin : In [finding_range r]
                  (sink_ranges (dict_get results (check_id r)))).
  { rewrite Hget. apply (in_map (fun r => [finding_range r])).
    apply filter_In. split; [exact Hr |].
    now rewrite Ht, String.eqb_refl. }
  unfold sink_ranges in Hin. apply in_map_iff in Hin as (g & Hg & Hing).
  destruct (cluster_covers _ g Hing) as (g' & Hg' & _ & _ & Hs).
  exists g'. split; [exact Hg' |].
  apply in_map_iff.
  assert (Hone : In (finding_range r) (map trace_range (sinks g)))
    by (rewrite Hg; now left).
  apply in_map_iff in Hone as (k & Hk & Hink).
  exists k. split; [exact Hk | now apply Hs].
Qed.

Lemma main_keeps_every_finding_witness :
  exists g', In g' (dict_get [("rule", [update graph_c graph_e])]
                      (check_id finding_e))
             /\ In (finding_range finding_e) (map trace_range (sinks g')).
Proof.
  apply (main_keeps_every_finding [finding_c; finding_e] sample_contents
           sample_store [("rule", [update graph_c graph_e])] finding_e).
  - reflexivity.
  - right. now left.
  - reflexivity.
Defined.

(** ** Rendering *)

Lemma count_cons_zero (c d : ascii) (s : string) :
  count c (String d s) = 0%nat <-> Ascii.eqb d c = false /\ count c s = 0%nat.
Proof. cbn [count]. destruct (Ascii.eqb d c); simpl; intuition lia. Qed.

Lemma count_uint (c : ascii) (d : Decimal.uint) :
  count c "0123456789" = 0%nat ->
  count c (NilEmpty.string_of_uint d) = 0%nat.
Proof.
  rewrite !count_cons_zero.
  intros (H0 & H1 & H2 & H3 & H4 & H5 & H6 & H7 & H8 & H9 & _).
  induction d as [|d IH|d IH|d IH|d IH|d IH|d IH|d IH|d IH|d IH|d IH];
    [reflexivity | ..]; cbn [NilEmpty.string_of_uint];
    apply count_cons_zero; auto.
Qed.

Lemma count_str_int (c : ascii) (n : Z) :
  count c "-0123456789" = 0%nat -> count c (str_int n) = 0%nat.
Proof.
  intros [Hm Hd]%count_cons_zero.
  assert (Hz : forall d, count c (NilZero.string_of_uint d) = 0%nat).
  { intros d. unfold NilZero.string_of_uint.
    destruct d; try apply (count_uint c _ Hd).
    apply count_cons_zero. split; [| reflexivity].
    now apply count_cons_zero in Hd. }
  unfold str_int, NilZero.string_of_int.
  destruct (Z.to_int n) as [d | d]; [apply Hz |].
  apply count_cons_zero. auto.
Qed.

Lemma count_context_dquote (x : TaintTrace) : count Text.dquote (context x) = 0%nat.
Proof.
  unfold context. rewrite escape_expand.
  apply count_expand_zero, count_token_dquote.
Qed.

Lemma count_context_newline (x : TaintTrace) : count Text.newline (context x) = 0%nat.
Proof.
  unfold context. rewrite escape_expand.
  apply count_expand_zero, count_token_newline.
Qed.

(** X24.  Whatever the text of a trace, its node name has exactly two double
    quotes, those around the label, and no newline; an edge line has neither.
    The escaping keeps a text from ending its label or its line. *)
Theorem mermaid_names_well_formed hash (x : TaintTrace) (e : Z * Z) :
  count Text.dquote (mermaid_node_name hash x) = 2%nat
  /\ count Text.newline (mermaid_node_name hash x) = 0%nat
  /\ count Text.dquote (edge_line e) = 0%nat
  /\ count Text.newline (edge_line e) = 0%nat.
Proof.
  unfold mermaid_node_name, edge_line.
  repeat split;
    repeat (rewrite ?count_append, ?count_str_int, ?count_context_dquote,
              ?count_context_newline by reflexivity; cbn [count]);
    reflexivity.
Qed.

Lemma eq_same_name hash (x y : TaintTrace) :
  __eq__ x y = true -> mermaid_node_name hash x = mermaid_node_name hash y.
Proof.
  intros [Ho Hc]%eq_spec. unfold mermaid_node_name, __hash__, hash_key.
  now rewrite Ho, Hc.
Qed.

Lemma names_union hash (l1 l2 : list TaintTrace) :
  list_to_set (map (mermaid_node_name hash) (l1 ++ l2))
  =@{gset string} list_to_set (map (mermaid_node_name hash) l1)
                  ∪ list_to_set (map (mermaid_node_name hash) l2).
Proof. now rewrite map_app, list_to_set_app_L. Qed.

(** X25.  The sets that [to_graph] builds for a merged graph are the unions
    of the sets of the two graphs: edge lines, names of sources, of
    intermediates and of sinks.  Equal traces have one name, so a merge with a
    graph whose sinks all equal sinks of the first adds no sink name, though
    it makes the list of sinks longer. *)
Theorem to_graph_sets_of_update hash (st : store) (g h : TaintTraceGraph) :
  nodes (to_graph_sets hash st (update g h))
  = nodes (to_graph_sets hash st g) ∪ nodes (to_graph_sets hash st h)
  /\ source_names (to_graph_sets hash st (update g h))
     = source_names (to_graph_sets hash st g)
       ∪ source_names (to_graph_sets hash st h)
  /\ intermediate_names (to_graph_sets hash st (update g h))
     = intermediate_names (to_graph_sets hash st g)
       ∪ intermediate_names (to_graph_sets hash st h)
  /\ sink_names (to_graph_sets hash st (update g h))
     = sink_names (to_graph_sets hash st g)
       ∪ sink_names (to_graph_sets hash st h)
  /\ ((forall y, In y (sinks h) ->
                 exists x, In x (sinks g) /\ __eq__ x y = true) ->
      sink_names (to_graph_sets hash st (update g h))
      = sink_names (to_graph_sets hash st g)).
Proof.
  cbn [to_graph_sets nodes source_names intermediate_names sink_names
         update sources intermediates sinks].
  split; [| split; [apply names_union | split; [apply names_union |
    split; [apply names_union |]]]].
  - unfold emitted. cbn [update sources intermediates sinks].
    rewrite !flat_map_app, !map_app, !list_to_set_app_L.
    apply set_eq. intros s. rewrite !elem_of_union. tauto.
  - intros Hsub. rewrite names_union. apply set_eq. intros s.
    rewrite elem_of_union, !elem_of_list_to_set. split; [| now left].
    intros [H | H]; [exact H |].
    apply list_elem_of_In, in_map_iff in H as (y & <- & Hy).
    destruct (Hsub y Hy) as (x & Hx & Hxy).
    rewrite <- (eq_same_name hash x y Hxy).
    now apply list_elem_of_In, in_map.
Qed.

(** ** The two writes of [next_traces] *)

Lemma set_add_length (s : pyset) (x : TaintTrace) :
  (length s <= length (set_add s x) <= length s + 1)%nat.
Proof.
  unfold set_add. destruct (set_contains s x); [lia |].
  rewrite length_app. simpl. lia.
Qed.

Lemma set_update_length (it : list TaintTrace) (s : pyset) :
  (length s <= length (set_update s it) <= length s + length it)%nat.
Proof.
  unfold set_update. revert s. induction it as [|x it IH]; intros s.
  - simpl. lia.
  - cbn [fold_left length]. pose proof (set_add_length s x).
    pose proof (IH (set_add s x)). lia.
Qed.

Lemma set_update_contains_bool (it : list TaintTrace) (s : pyset)
  (y : TaintTrace) :
  set_contains (set_update s it) y
  = set_contains s y || existsb (fun x => __eq__ x y) it.
Proof.
  apply eq_true_iff_eq.
  rewrite set_update_contains, orb_true_iff, existsb_exists. reflexivity.
Qed.

(** X26.  [update_traces] unites: for a trace [x] of the store, a trace is
    among the successors of [x] afterwards iff it equals one of the old
    successors or one of the traces given, and the set has grown by at most
    as many elements as traces were given.  [set_next_traces] replaces:
    afterwards a trace is a successor iff it equals one of the traces given.
    Both leave the successors of every other object as they were. *)
Theorem update_traces_unites (st : store) (x : TaintTrace)
  (other : list TaintTrace) :
  (oid x < length st)%nat ->
  (forall y,
     set_contains (next_traces (update_traces st x other) x) y
     = set_contains (next_traces st x) y
       || existsb (fun z => __eq__ z y) other)
  /\ (length (next_traces st x)
      <= length (next_traces (update_traces st x other) x)
      <= length (next_traces st x) + length other)%nat
  /\ (forall y,
        set_contains (next_traces (set_next_traces st x other) x) y
        = existsb (fun z => __eq__ z y) other)
  /\ (forall z, oid z <> oid x ->
        next_traces (update_traces st x other) z = next_traces st z
        /\ next_traces (set_next_traces st x other) z = next_traces st z).
Proof.
  intros Hx.
  assert (Hu : next_traces (update_traces st x other) x
               = set_update (next_traces st x) other).
  { unfold update_traces, next_traces at 1.
    now rewrite list_lookup_insert_eq by exact Hx. }
  assert (Hs : next_traces (set_next_traces st x other) x = set_ other).
  { unfold set_next_traces, next_traces.
    now rewrite list_lookup_insert_eq by exact Hx. }
  split; [intros y; rewrite Hu; apply set_update_contains_bool |].
  split; [rewrite Hu; apply set_update_length |].
  split.
  - intros y. rewrite Hs. unfold set_.
    now rewrite set_update_contains_bool.
  - intros z Hz. unfold update_traces, set_next_traces, next_traces.
    now rewrite !list_lookup_insert_ne by congruence.
Qed.

Lemma update_traces_unites_witness :
  (forall y,
     set_contains
       (next_traces (update_traces sample_store trace_a1 [trace_e]) trace_a1) y
     = set_contains (next_traces sample_store trace_a1) y
       || existsb (fun z => __eq__ z y) [trace_e])
  /\ (length (next_traces sample_store trace_a1)
      <= length (next_traces (update_traces sample_store trace_a1 [trace_e])
                   trace_a1)
      <= length (next_traces sample_store trace_a1) + length [trace_e])%nat
  /\ (forall y,
        set_contains
          (next_traces (set_next_traces sample_store trace_a1 [trace_e]) trace_a1) y
        = existsb (fun z => __eq__ z y) [trace_e])
  /\ (forall z, oid z <> oid trace_a1 ->
        next_traces (update_traces sample_store trace_a1 [trace_e]) z
        = next_traces sample_store z
        /\ next_traces (set_next_traces sample_store trace_a1 [trace_e]) z
           = next_traces sample_store z).
Proof.
  apply (update_traces_unites sample_store trace_a1 [trace_e]).
  simpl. lia.
Defined.

(** ** Constructing a graph again *)

Lemma link_again (l : list TaintTrace) (st : store) :
  NoDup (map oid l) ->
  Forall (fun x => (oid x < length st)%nat) l ->
  link (link st l) l = link st l.
Proof.
  intros Hnd Hlt. apply list_eq. intros i.
  assert (Hlt' : Forall (fun x => (oid x < length (link st l))%nat) l)
    by (eapply List.Forall_impl; [| exact Hlt]; intros x Hx; now rewrite link_length).
  destruct (in_dec Nat.eq_dec i (map oid (removelast l))) as [Hin | Hout].
  - apply in_map_iff in Hin as (a & <- & Ha).
    apply list_elem_of_In, list_elem_of_lookup in Ha as [k Hk].
    assert (Hk1 : l !! k = Some a).
    { destruct (exists_last (l := l)) as (q & z & ->).
      - intros ->. cbn [removelast] in Hk. now rewrite lookup_nil in Hk.
      - rewrite removelast_last in Hk. now apply lookup_app_l_Some. }
    assert (Hk2 : is_Some (l !! Datatypes.S k)).
    { apply lookup_lt_is_Some_2. apply lookup_lt_Some in Hk.
      destruct (exists_last (l := l)) as (q & z & ->).
      - intros ->. simpl in Hk. lia.
      - rewrite removelast_last in Hk. rewrite length_app. simpl. lia. }
    destruct Hk2 as [b Hb].
    now rewrite (link_succ l (link st l) k a b), (link_succ l st k a b).
  - apply link_other. intros a Ha E. apply Hout. rewrite <- E. now apply in_map.
Qed.

(** X27.  Constructing a graph again from the three lists of a graph that
    was constructed from traces just created changes nothing: it returns the
    same graph and the same store. *)
Theorem init_again (st : store) (S I K : list TaintTrace)
  (st' : store) (g : TaintTraceGraph) :
  unlinked st (S ++ I ++ K) ->
  TaintTraceGraph__init__ st S I K = inr (st', g) ->
  TaintTraceGraph__init__ st' (sources g) (intermediates g) (sinks g)
  = inr (st', g).
Proof.
  intros Hun. pose proof (unlinked_sorted _ _ _ _ Hun) as Hun'.
  assert (FS : sorted (sorted S) = sorted S)
    by apply sorted_fixed, sorted_ascending.
  assert (FI : sorted (sorted I) = sorted I)
    by apply sorted_fixed, sorted_ascending.
  assert (FK : sorted (sorted K) = sorted K)
    by apply sorted_fixed, sorted_ascending.
  rewrite init_spec. intros Hi. rewrite init_spec.
  destruct (sorted S) as [|s0 ss] eqn:ES; [discriminate |].
  destruct (sorted K) as [|k0 kk] eqn:EK; [discriminate |].
  assert (E1 : st' = link st ((s0 :: ss) ++ sorted I ++ [k0])) by congruence.
  assert (E2 : g = mkTaintTraceGraph (s0 :: ss) (sorted I) (k0 :: kk))
    by congruence.
  subst st' g. clear Hi. cbn [sources intermediates sinks].
  rewrite FS, FI, FK. f_equal. f_equal.
  rewrite !app_assoc. rewrite app_assoc in Hun'. destruct Hun' as [Hnd Hf].
  apply link_again.
  - now apply path_nodup with kk.
  - apply Forall_forall. intros x Hx.
    rewrite Forall_forall in Hf. apply (lookup_lt_Some _ _ []), Hf.
    rewrite !elem_of_app in *. destruct Hx as [Hx | Hx]; [now left |].
    right. apply list_elem_of_singleton in Hx as ->. now left.
Qed.

Lemma init_again_witness :
  TaintTraceGraph__init__ store_A (sources graph_A) (intermediates graph_A)
    (sinks graph_A)
  = inr (store_A, graph_A).
Proof.
  apply (init_again (fresh 3) [node_B; node_A] [] [node_C]).
  - split.
    + apply (bool_decide_unpack _). vm_compute. exact I.
    + repeat constructor.
  - reflexivity.
Defined.

(** ** Intersection and merge together *)

Lemma overlap_app_l (l1 l2 l : list TaintTrace) :
  overlap (l1 ++ l2) l <-> overlap l1 l \/ overlap l2 l.
Proof.
  unfold overlap. split.
  - intros (a & b & [Ha | Ha]%in_app_or & Hb & E); [left | right]; eauto.
  - intros [(a & b & Ha & Hb & E) | (a & b & Ha & Hb & E)];
      exists a, b; (split; [apply in_or_app; auto |]); auto.
Qed.

Lemma overlap_self (l : list TaintTrace) : overlap l l <-> l <> [].
Proof.
  split.
  - intros (a & _ & Ha & _) ->. destruct Ha.
  - destruct l as [|a l]; [congruence |]. intros _.
    exists a, a. repeat split; try now left. apply eq_refl_trace.
Qed.

(** X28.  A merged graph intersects exactly what one of its two parts
    intersects: [g.update(h)] followed by [g.intersects(k)] is true iff [g]
    or [h] intersected [k] before.  A graph intersects itself exactly when it
    has a trace at all, as every constructed graph has. *)
Theorem intersects_of_update (g h k : TaintTraceGraph) :
  intersects (update g h) k = intersects g k || intersects h k
  /\ intersects k (update g h) = intersects k g || intersects k h
  /\ (intersects g g = true
      <-> sources g <> [] \/ intermediates g <> [] \/ sinks g <> []).
Proof.
  assert (H : forall a b c,
             intersects (update a b) c = intersects a c || intersects b c).
  { intros a b c. apply eq_true_iff_eq.
    rewrite orb_true_iff, !intersects_spec.
    cbn [update sources intermediates sinks]. rewrite !overlap_app_l. tauto. }
  split; [apply H |]. split.
  - now rewrite intersects_sym, H, (intersects_sym g), (intersects_sym h).
  - now rewrite intersects_spec, !overlap_self.
Qed.

(** ** What the script prints *)

Lemma sink_ranges_length (gs : list TaintTraceGraph) :
  length (sink_ranges gs) = length gs.
Proof. apply length_map. Qed.

(** X29.  When a run completes, the clusters are printed per check id, the
    check ids being those of the findings with a dataflow trace in the order
    of their first finding; and for each check id the number of clusters is
    at most the number of its findings with a dataflow trace, and at least
    one when there is such a finding. *)
Theorem main_output_shape (data : list finding) (c : string) (st : store)
  (out : list (string * list TaintTraceGraph)) :
  main data c = inr (st, out) ->
  map fst out = first_seen (map check_id (List.filter has_trace data))
  /\ forall k,
       let n := length (List.filter
                          (fun r => has_trace r && String.eqb (check_id r) k)
                          data) in
       (length (dict_get out k) <= n)%nat
       /\ ((0 < n)%nat -> (0 < length (dict_get out k))%nat).
Proof.
  unfold main. destruct (load data c) as [e | [st' results]] eqn:E;
    [discriminate |].
  cbn [bind ret]. intros [= <- <-].
  destruct (for_each_load_dict _ _ _ _ _ _ E) as [Hkeys Hget].
  split.
  - rewrite map_map. cbn [fst]. exact Hkeys.
  - intros k. cbv zeta. rewrite dict_get_map_cluster.
    specialize (Hget k). cbn [dict_get sink_ranges map app] in Hget.
    apply (f_equal (@length _)) in Hget.
    rewrite sink_ranges_length, length_map in Hget. rewrite <- Hget.
    split; [apply cluster_length |].
    intros Hpos. destruct (dict_get results k) as [|g gs]; [simpl in Hpos; lia |].
    destruct (cluster_covers (g :: gs) g) as (g' & Hg' & _); [now left |].
    destruct (cluster (g :: gs)); [destruct Hg' | simpl; lia].
Qed.

Lemma main_output_shape_witness :
  map fst [("rule", [update graph_c graph_e])]
  = first_seen (map check_id (List.filter has_trace [finding_c; finding_e]))
  /\ forall k,
       let n := length (List.filter
                          (fun r => has_trace r && String.eqb (check_id r) k)
                          [finding_c; finding_e]) in
       (length (dict_get [("rule", [update graph_c graph_e])] k) <= n)%nat
       /\ ((0 < n)%nat ->
           (0 < length (dict_get [("rule", [update graph_c graph_e])] k))%nat).
Proof.
  apply (main_output_shape [finding_c; finding_e] sample_contents sample_store).
  reflexivity.
Defined.

(** ** When the escaping is one to one *)

(** The tokens of characters other than [#] and [&] form a prefix code. *)
Lemma token_prefix_free (c c' : ascii) (a b : string) :
  c <> "#"%char -> c <> "&"%char -> c' <> "#"%char -> c' <> "&"%char ->
  String.append (token c) a = String.append (token c') b ->
  c = c' /\ a = b.
Proof.
  intros H1 H2 H3 H4. unfold token.
  destruct (Ascii.eqb_spec c Text.dquote) as [-> | N1];
    [| destruct (Ascii.eqb_spec c Text.apos) as [-> | N2];
       [| destruct (Ascii.eqb_spec c Text.lt) as [-> | N3];
          [| destruct (Ascii.eqb_spec c Text.gt) as [-> | N4];
             [| destruct (Ascii.eqb_spec c Text.newline) as [-> | N5]]]]];
    (destruct (Ascii.eqb_spec c' Text.dquote) as [-> | M1];
     [| destruct (Ascii.eqb_spec c' Text.apos) as [-> | M2];
        [| destruct (Ascii.eqb_spec c' Text.lt) as [-> | M3];
           [| destruct (Ascii.eqb_spec c' Text.gt) as [-> | M4];
              [| destruct (Ascii.eqb_spec c' Text.newline) as [-> | M5]]]]]);
    cbv [Text.dquote Text.apos Text.lt Text.gt Text.newline] in *;
    intros H; cbv [String.append] in H;
    repeat match goal with
           | Hx : context [ascii_of_nat ?n] |- _ =>
               let v := eval vm_compute in (ascii_of_nat n) in
               change (ascii_of_nat n) with v in Hx
           | |- context [ascii_of_nat ?n] =>
               let v := eval vm_compute in (ascii_of_nat n) in
               change (ascii_of_nat n) with v
           end;
    first [ discriminate H
          | split; congruence
          | exfalso; congruence ].
Qed.

Lemma count_zero_cons (c d : ascii) (s : string) :
  count c (String d s) = 0%nat -> d <> c /\ count c s = 0%nat.
Proof.
  intros [H1 H2]%count_cons_zero. split; [| exact H2].
  intros ->. now rewrite Ascii.eqb_refl in H1.
Qed.

Lemma expand_inj (s t : string) :
  count "#" s = 0%nat -> count "&" s = 0%nat ->
  count "#" t = 0%nat -> count "&" t = 0%nat ->
  expand s = expand t -> s = t.
Proof.
  revert t. induction s as [|c s IH]; intros t Hs1 Hs2 Ht1 Ht2 H.
  - symmetry. now apply expand_nil_inv.
  - destruct t as [|c' t]; [now apply expand_nil_inv in H |].
    apply count_zero_cons in Hs1 as [? ?], Hs2 as [? ?].
    apply count_zero_cons in Ht1 as [? ?], Ht2 as [? ?].
    cbn [expand] in H. apply token_prefix_free in H as [-> H]; auto.
    f_equal. now apply IH.
Qed.

(** X30.  On texts without [#] and [&] the escaping is one to one: two
    traces at one offset whose raw texts have neither character are equal
    iff their raw texts are equal.  (With these characters it is not: the
    text of a double quote and the text [#quot;] escape alike.) *)
Theorem eq_by_raw_text_without_hash_amp (a b : TaintTrace) :
  count "#" (_context a) = 0%nat -> count "&" (_context a) = 0%nat ->
  count "#" (_context b) = 0%nat -> count "&" (_context b) = 0%nat ->
  (context a = context b <-> _context a = _context b)
  /\ (__eq__ a b = true <-> offset a = offset b /\ _context a = _context b).
Proof.
  intros A1 A2 B1 B2.
  assert (H : context a = context b <-> _context a = _context b).
  { unfold context. split; [| now intros ->].
    rewrite !escape_expand. now apply expand_inj. }
  split; [exact H |]. rewrite eq_spec. tauto.
Qed.

Lemma eq_by_raw_text_without_hash_amp_witness :
  (context node_A = context node_B <-> _context node_A = _context node_B)
  /\ (__eq__ node_A node_B = true
      <-> offset node_A = offset node_B /\ _context node_A = _context node_B).
Proof.
  apply (eq_by_raw_text_without_hash_amp node_A node_B); reflexivity.
Defined.

(** * The traces and the graphs of a run *)

(** ** Equality of the traces of a run *)

Lemma eq_from_text (c : string) (a b : TaintTrace) :
  from_text c a -> from_text c b ->
  (__eq__ a b = true <-> offset a = offset b /\ _context a = _context b).
Proof.
  intros [Ha Ca] [Hb Cb]. rewrite eq_spec. unfold context.
  split; intros [Ho Hc]; (split; [exact Ho |]).
  - rewrite Ca, Cb in Hc |- *. unfold raw_text, trace_range in *.
    cbn [span_start span_end] in *.
    rewrite <- Ha, <- Hb, <- Ho in *. now apply slice_escape_inj.
  - now rewrite Hc.
Qed.

Lemma make_traces_from_text (c : string) (st : store) (ranges : list span)
  (x : TaintTrace) :
  In x (snd (make_traces st ranges c)) -> from_text c x.
Proof.
  intros H. pose proof (make_traces_fields ranges c st) as F.
  rewrite List.Forall_forall in F. exact (F x H).
Qed.

Lemma associate_info_from_text (c : string) (st : store) (ranges : list span)
  (x : TaintTrace) :
  In x (snd (associate_info st ranges c)) -> from_text c x.
Proof.
  rewrite associate_info_eq. cbn [snd]. intros H.
  apply List.filter_In in H as [H _]. now apply make_traces_from_text in H.
Qed.

Lemma sorted_In (l : list TaintTrace) (x : TaintTrace) :
  In x (sorted l) <-> In x l.
Proof.
  split; intros H; apply list_elem_of_In; apply list_elem_of_In in H.
  - now rewrite <- (sorted_perm l).
  - now rewrite (sorted_perm l).
Qed.

(** The traces of a graph that the script constructs are made from the
    text. *)
Lemma construct_from_text (st : store) (r : finding) (c : string)
  (st1 : store) (S I K : list TaintTrace) (st2 : store) (g : TaintTraceGraph) :
  format_source st r c = inr (st1, (S, I, K)) ->
  TaintTraceGraph__init__ st1 S I K = inr (st2, g) ->
  Forall (from_text c) (traces_of g).
Proof.
  intros Hf Hi.
  destruct (init_inv _ _ _ _ _ _ Hi) as (_ & _ & -> & _).
  destruct (extra_dataflow_trace r) as [t|] eqn:Et;
    [| unfold format_source in Hf; rewrite Et in Hf; discriminate].
  rewrite (format_source_eq _ _ _ _ Et) in Hf. cbv zeta in Hf.
  remember (associate_info st (taint_source t) c) as a1 eqn:E1.
  remember (associate_info (fst a1) (intermediate_vars t) c) as a2 eqn:E2.
  remember (associate_info (fst a2) [finding_range r] c) as a3 eqn:E3.
  injection Hf as _ <- <- <-.
  apply List.Forall_forall. intros x Hx. unfold traces_of in Hx.
  cbn [sources intermediates sinks] in Hx.
  rewrite !in_app_iff, !sorted_In in Hx.
  destruct Hx as [Hx | [Hx | Hx]];
    [rewrite E1 in Hx | rewrite E2 in Hx | rewrite E3 in Hx];
    now apply associate_info_from_text in Hx.
Qed.

Lemma from_text_update (c : string) (g h : TaintTraceGraph) :
  Forall (from_text c) (traces_of g) -> Forall (from_text c) (traces_of h) ->
  Forall (from_text c) (traces_of (update g h)).
Proof.
  unfold traces_of, update. cbn [sources intermediates sinks].
  rewrite !Forall_app. tauto.
Qed.

Lemma load_one_from_text (c : string) (r : finding)
  (s s' : store * list (string * list TaintTraceGraph)) :
  all_graphs (fun g => Forall (from_text c) (traces_of g)) (snd s) ->
  load_one c r s = inr s' ->
  all_graphs (fun g => Forall (from_text c) (traces_of g)) (snd s').
Proof.
  destruct s as [st results], s' as [st' results']. cbn [snd].
  intros Hall H. destruct (extra_dataflow_trace r) as [t|] eqn:Et.
  2:{ rewrite load_one_no_trace in H by exact Et. now injection H as <- <-. }
  destruct (load_one_trace _ _ _ _ _ _ _ Et H)
    as (st1 & S & I & K & g & Hf & Hi & ->).
  apply all_graphs_append.
  - destruct (dict_mem results (check_id r)); [exact Hall |].
    now apply all_graphs_new.
  - exact (construct_from_text _ _ _ _ _ _ _ _ _ Hf Hi).
Qed.

Lemma load_from_text (data : list finding) (c : string) (st : store)
  (results : list (string * list TaintTraceGraph)) :
  load data c = inr (st, results) ->
  all_graphs (fun g => Forall (from_text c) (traces_of g)) results.
Proof.
  intros H.
  apply (for_each_inv
           (fun s => all_graphs
                       (fun g => Forall (from_text c) (traces_of g)) (snd s))
           (load_one c) (load_one_from_text c) data ([], []) (st, results));
    [constructor | exact H].
Qed.

Lemma main_from_text (data : list finding) (c : string) (st : store)
  (out : list (string * list TaintTraceGraph)) :
  main data c = inr (st, out) ->
  all_graphs (fun g => Forall (from_text c) (traces_of g)) out.
Proof.
  unfold main. destruct (load data c) as [e | [st' results]] eqn:E;
    [discriminate |].
  cbn [bind ret]. intros [= <- <-].
  pose proof (load_from_text _ _ _ _ E) as Hall.
  unfold all_graphs in *. rewrite Forall_map.
  eapply List.Forall_impl; [| exact Hall].
  intros kv Hkv. cbn [snd]. apply cluster_keeps; [| exact Hkv].
  intros g h. apply from_text_update.
Qed.

Lemma all_graphs_In (P : TaintTraceGraph -> Prop)
  (results : list (string * list TaintTraceGraph))
  (kv : string * list TaintTraceGraph) (g : TaintTraceGraph) :
  all_graphs P results -> In kv results -> In g (snd kv) -> P g.
Proof.
  unfold all_graphs. rewrite List.Forall_forall. intros H Hkv Hg.
  specialize (H kv Hkv). rewrite List.Forall_forall in H. now apply H.
Qed.

(** C1.  For every two Nodes [a] and [b] of a run, [a == b] holds iff
    [a.offset == b.offset] and the raw source texts covered by their spans
    are equal, and the hash agrees with equality: it is taken of a key that
    is derived from the offset and the raw text alone, and equal nodes have
    equal hashes.  The Nodes of a run are the traces that [associate_info]
    makes of ranges of the one text read ([contents]), whether or not they
    are kept; among them are the traces of every graph that the run leaves in
    the lists [final]. *)
Theorem eq_iff_offset_and_raw_context (hash : Z * string -> Z) (c : string) :
  (forall st st' ranges ranges' a b,
     In a (snd (make_traces st ranges c)) ->
     In b (snd (make_traces st' ranges' c)) ->
     (__eq__ a b = true <-> offset a = offset b /\ _context a = _context b)
     /\ __hash__ hash a = hash (offset a, escape (_context a))
     /\ (__eq__ a b = true -> __hash__ hash a = __hash__ hash b))
  /\ (forall data st out,
        main data c = inr (st, out) ->
        forall kv g a kv' g' b,
          In kv out -> In g (snd kv) -> In a (traces_of g) ->
          In kv' out -> In g' (snd kv') -> In b (traces_of g') ->
          (__eq__ a b = true <-> offset a = offset b /\ _context a = _context b)
          /\ __hash__ hash a = hash (offset a, escape (_context a))
          /\ (__eq__ a b = true -> __hash__ hash a = __hash__ hash b)).
Proof.
  assert (K : forall a b, from_text c a -> from_text c b ->
    (__eq__ a b = true <-> offset a = offset b /\ _context a = _context b)
    /\ __hash__ hash a = hash (offset a, escape (_context a))
    /\ (__eq__ a b = true -> __hash__ hash a = __hash__ hash b)).
  { intros a b Ha Hb. split; [now apply eq_from_text with c |].
    split; [reflexivity |].
    intros H. apply eq_spec in H as [Ho Hc].
    unfold __hash__, hash_key. now rewrite Ho, Hc. }
  split.
  - intros st st' ranges ranges' a b Ha Hb.
    apply K; eapply make_traces_from_text; eassumption.
  - intros data st out Hm kv g a kv' g' b Hkv Hg Ha Hkv' Hg' Hb.
    pose proof (main_from_text _ _ _ _ Hm) as Hall.
    pose proof (all_graphs_In _ _ _ _ Hall Hkv Hg) as Fg.
    pose proof (all_graphs_In _ _ _ _ Hall Hkv' Hg') as Fg'.
    rewrite List.Forall_forall in Fg, Fg'. apply K; auto.
Qed.

Lemma eq_iff_offset_and_raw_context_witness :
  (__eq__ trace_a1 trace_a2 = true
   <-> offset trace_a1 = offset trace_a2
       /\ _context trace_a1 = _context trace_a2)
  /\ __hash__ fst trace_a1 = fst (offset trace_a1, escape (_context trace_a1))
  /\ (__eq__ trace_a1 trace_a2 = true
      -> __hash__ fst trace_a1 = __hash__ fst trace_a2).
Proof.
  apply (proj2 (eq_iff_offset_and_raw_context fst sample_contents)
           [finding_c; finding_e] sample_store
           [("rule", [update graph_c graph_e])] eq_refl
           ("rule", [update graph_c graph_e]) (update graph_c graph_e) trace_a1
           ("rule", [update graph_c graph_e]) (update graph_c graph_e) trace_a2);
    simpl; auto.
Defined.

(** ** The edges of the graphs of a run *)

(** A graph with one sink that is linked as a path has one edge out of
    every source and every intermediate and none out of the sink. *)
Lemma path_edge_count hash (st : store) (g : TaintTraceGraph) :
  length (sinks g) = 1%nat -> linked_as_path st g ->
  len (emitted hash st g)
  = len (sources g) + len (intermediates g) + len (sinks g) - 1.
Proof.
  intros HK [Hp Hk].
  assert (Hlen : length (path_of g)
                 = (length (sources g ++ intermediates g) + 1)%nat).
  { unfold path_of. rewrite app_assoc, length_app, length_take. lia. }
  assert (Hone : forall x, In x (sources g ++ intermediates g) ->
                           exists b, st !! oid x = Some [b]).
  { intros x Hx. apply list_elem_of_In, list_elem_of_lookup in Hx as [i Hi].
    pose proof (lookup_lt_Some _ _ _ Hi) as Hlt.
    destruct (lookup_lt_is_Some_2 (path_of g) (i + 1)) as [b Hb]; [lia |].
    exists b. apply (Hp i x b); [| exact Hb].
    unfold path_of. rewrite app_assoc. now apply lookup_app_l_Some. }
  unfold emitted, len. rewrite !length_app.
  rewrite (edges_one_each hash st (sources g))
    by (intros x Hx; apply Hone, in_or_app; now left).
  rewrite (edges_one_each hash st (intermediates g))
    by (intros x Hx; apply Hone, in_or_app; now right).
  rewrite (edges_none hash st (sinks g)) by exact Hk.
  rewrite HK. simpl. lia.
Qed.

Lemma load_paths (data : list finding) (c : string) (st : store)
  (results : list (string * list TaintTraceGraph)) :
  load data c = inr (st, results) ->
  all_graphs (fun g => sources g <> [] /\ length (sinks g) = 1%nat
                       /\ linked_as_path st g) results.
Proof.
  intros H.
  apply (for_each_inv
           (fun s => all_graphs
                       (fun g => sources g <> [] /\ length (sinks g) = 1%nat
                                 /\ linked_as_path (fst s) g) (snd s))
           (load_one c) (load_one_paths c) data ([], []) (st, results));
    [constructor | exact H].
Qed.

(** C2.  Every Trace Graph that a run constructs has non-empty sources and
    emits [len(sources) + len(intermediates) + len(sinks) - 1] edges, one
    for each pair of a node of its sources, intermediates and sinks and a
    successor of that node: it is a single linear chain.  The script
    constructs a graph in one place, from what [format_source] returns for a
    finding: with a source and a sink the construction succeeds and the
    graph has that many edges; and when the loop over the findings has ended,
    every graph of the dict still has that many edges in the final store. *)
Theorem constructed_graph_is_chain (hash : Z * string -> Z) :
  (forall st r c st1 S I K,
     format_source st r c = inr (st1, (S, I, K)) -> S <> [] -> K <> [] ->
     exists st2 g,
       TaintTraceGraph__init__ st1 S I K = inr (st2, g)
       /\ sources g <> []
       /\ len (emitted hash st2 g)
          = len (sources g) + len (intermediates g) + len (sinks g) - 1)
  /\ (forall data c st results,
        load data c = inr (st, results) ->
        forall kv g, In kv results -> In g (snd kv) ->
          sources g <> []
          /\ len (emitted hash st g)
             = len (sources g) + len (intermediates g) + len (sinks g) - 1).
Proof.
  split.
  - intros st r c st1 S I K Hf HS HK.
    destruct (format_source_spec _ _ _ _ _ _ _ Hf) as (U & _).
    destruct (init_unlinked hash _ _ _ _ U HS HK) as (st2 & g & Hi & Eg & _).
    exists st2, g. split; [exact Hi |]. split.
    + rewrite Eg. cbn [sources]. intros E. now apply sorted_nil_inv in E.
    + now apply (construct_spec _ _ _ _ _ _ _ _ _ Hf Hi).
  - intros data c st results Hl kv g Hkv Hg.
    destruct (all_graphs_In _ _ _ _ (load_paths _ _ _ _ Hl) Hkv Hg)
      as (HS & HK & Hp).
    split; [exact HS | now apply path_edge_count].
Qed.

Lemma constructed_graph_is_chain_witness :
  sources graph_e <> []
  /\ len (emitted fst sample_store graph_e)
     = len (sources graph_e) + len (intermediates graph_e)
       + len (sinks graph_e) - 1.
Proof.
  apply (proj2 (constructed_graph_is_chain fst)
           [finding_c; finding_e] sample_contents sample_store
           [("rule", [graph_c; graph_e])] eq_refl
           ("rule", [graph_c; graph_e]) graph_e);
    simpl; auto.
Defined.
